(** * Shallow embedding of the spec-driven debate orchestrator

    Sources: [backend/debate_spec.py] (round specification model and YAML
    loader) and [backend/langgraph_debate_orchestrator.py] (router, round
    executors, fairness shuffler, context assembler and the [run_debate]
    driver over the compiled LangGraph [StateGraph]).

    Python dicts keyed by round number are association lists with unique
    keys (insertion order kept, as in a Python dict); Python [str] is
    [string]; Python [int] is [Z] (indices are [nat]). Exceptions are the
    [Err] branch of a small error monad. *)

From Stdlib Require Import String Ascii List ZArith Lia Bool Permutation.
From Stdlib Require Import Sorted.
From Stdlib Require Import Floats.SpecFloat.
Local Set Warnings "-register-all".
Local Set Warnings "-notation-overridden".
Import ListNotations.
Local Open Scope string_scope.
Local Open Scope Z_scope.
Local Open Scope list_scope.

(* ------------------------------------------------------------------ *)
(** ** Strings *)

Definition nl : string := String (ascii_of_nat 10) EmptyString.

(** Python's [str.join]: [sep.join(xs)]. *)
Fixpoint join (sep : string) (xs : list string) : string :=
  match xs with
  | [] => EmptyString
  | [x] => x
  | x :: rest => String.append x (String.append sep (join sep rest))
  end.

Definition digit (d : Z) : ascii := ascii_of_nat (48 + Z.to_nat d).

Fixpoint pos_digits (fuel : nat) (z : Z) (acc : string) : string :=
  match fuel with
  | O => acc
  | S f =>
      let acc' := String (digit (z mod 10)) acc in
      if z <? 10 then acc' else pos_digits f (z / 10) acc'
  end.

(** Python's [str(n)] for an [int] (decimal, leading [-] when negative). *)
Definition z_to_string (z : Z) : string :=
  match z with
  | Z0 => "0"
  | Zpos p => pos_digits (S (Pos.size_nat p)) (Zpos p) EmptyString
  | Zneg p => String "-" (pos_digits (S (Pos.size_nat p)) (Zpos p) EmptyString)
  end.

(* ------------------------------------------------------------------ *)
(** ** Errors: Python exceptions as an error monad *)

(** Exception classes that a completion call may raise. [ValueError],
    [RuntimeError] and [ConnectionError] stand for themselves and their
    subclasses; [TimeoutError] (also [asyncio.TimeoutError] since 3.11) is a
    subclass of [OSError], not of [ConnectionError]. *)
Inductive ExcClass :=
| ValueError
| RuntimeError
| ConnectionError
| TimeoutError
| OtherException (cls : string).

Record PyExc := { exc_class : ExcClass; exc_str : string }.

Inductive Fault :=
| Raised (e : PyExc)
| KeyError
| IndexError
| GraphRecursionError.

Inductive Result (A : Type) :=
| Ok (a : A)
| Err (f : Fault).
Arguments Ok {A} a.
Arguments Err {A} f.

Definition bind {A B} (m : Result A) (k : A -> Result B) : Result B :=
  match m with Ok a => k a | Err f => Err f end.

Notation "'let*' x := m 'in' k" := (bind m (fun x => k))
  (at level 200, x name, m at level 100, k at level 200).

Fixpoint mapM {A B} (f : A -> Result B) (l : list A) : Result (list B) :=
  match l with
  | [] => Ok []
  | x :: xs => let* y := f x in let* ys := mapM f xs in Ok (y :: ys)
  end.

(* ------------------------------------------------------------------ *)
(** ** debate_spec.py: the round specification model *)

Inductive RoundType := parallel | sequential | moderator.

Inductive RoundContextStrategy := topic_only | full_transcript.

Record RoundSpec := {
  title : string;
  round_type : RoundType;
  context_strategy : RoundContextStrategy;
  prompt_template : string
}.

(** [RoundsByNumber = dict[int, RoundSpec]]. *)
Definition RoundsByNumber := list (Z * RoundSpec).

Record DebateSpec := { rounds : RoundsByNumber }.

Fixpoint dict_get {V} (d : list (Z * V)) (k : Z) : option V :=
  match d with
  | [] => None
  | (k', v) :: rest => if Z.eqb k k' then Some v else dict_get rest k
  end.

(** [d[k] = v]: overwrite in place when present, append otherwise. *)
Fixpoint dict_set {V} (d : list (Z * V)) (k : Z) (v : V) : list (Z * V) :=
  match d with
  | [] => [(k, v)]
  | (k', v') :: rest =>
      if Z.eqb k k' then (k', v) :: rest else (k', v') :: dict_set rest k v
  end.

Definition title_for_round (s : DebateSpec) (round_number : Z) : option string :=
  match dict_get (rounds s) round_number with
  | Some cfg => Some (title cfg)
  | None => None
  end.

Definition type_for_round (s : DebateSpec) (round_number : Z) : option RoundType :=
  match dict_get (rounds s) round_number with
  | Some cfg => Some (round_type cfg)
  | None => None
  end.

(** [RoundType] is a [StrEnum]: its members compare equal to their strings. *)
Definition round_type_str (t : RoundType) : string :=
  match t with
  | parallel => "parallel"
  | sequential => "sequential"
  | moderator => "moderator"
  end.

(** *** The YAML loader

    [safe_load] turns the file's text into a YAML value; the loader then
    walks that value. A mapping is the Python [dict] PyYAML builds (keys
    unique). *)
Inductive Yaml :=
| YNull
| YBool (b : bool)
| YInt (z : Z)
| YFloat (f : spec_float)
| YStr (s : string)
| YList (xs : list Yaml)
| YMap (kvs : list (Yaml * Yaml)).

Definition py_exc (cls msg : string) : Fault :=
  Raised {| exc_class := OtherException cls; exc_str := msg |}.

(** Python truthiness of a loaded YAML value (for [safe_load(text) or {}]). *)
Definition yaml_truthy (y : Yaml) : bool :=
  match y with
  | YNull => false
  | YBool b => b
  | YInt z => negb (Z.eqb z 0)
  | YFloat f => match f with S754_zero _ => false | _ => true end
  | YStr s => negb (String.eqb s EmptyString)
  | YList xs => match xs with [] => false | _ => true end
  | YMap kvs => match kvs with [] => false | _ => true end
  end.

Fixpoint ystr_lookup (kvs : list (Yaml * Yaml)) (k : string) : option Yaml :=
  match kvs with
  | [] => None
  | (YStr k', v) :: rest => if String.eqb k k' then Some v else ystr_lookup rest k
  | _ :: rest => ystr_lookup rest k
  end.

(** [d.get(k, default)] on a dict; other values have no [.get]. *)
Definition yaml_get (y : Yaml) (k : string) (default : Yaml) : Result Yaml :=
  match y with
  | YMap kvs => Ok (match ystr_lookup kvs k with Some v => v | None => default end)
  | _ => Err (py_exc "AttributeError" "object has no attribute 'get'")
  end.

(** [cfg[k]]. *)
Definition yaml_index (y : Yaml) (k : string) : Result Yaml :=
  match y with
  | YMap kvs => match ystr_lookup kvs k with Some v => Ok v | None => Err KeyError end
  | _ => Err (py_exc "TypeError" "object is not subscriptable")
  end.

(** **** [int(key)]: CPython 3.12's [int()] on the key values YAML produces.

    A Python [str] is held as the UTF-8 encoding of its code points. *)

Definition byte_val (c : ascii) : Z := Z.of_nat (nat_of_ascii c).

(** The payload of a continuation byte [10xxxxxx]. *)
Definition utf8_cont (c : ascii) : option Z :=
  let b := byte_val c in
  if (128 <=? b) && (b <? 192) then Some (b - 128) else None.

(** Strict UTF-8 decoding (no overlong forms, no surrogates, at most
    U+10FFFF); a [str] built by [safe_load] always decodes. *)
Fixpoint utf8_decode (s : string) : option (list Z) :=
  match s with
  | EmptyString => Some []
  | String c0 rest =>
      let b0 := byte_val c0 in
      if b0 <? 128 then option_map (cons b0) (utf8_decode rest)
      else if (194 <=? b0) && (b0 <? 224) then
        match rest with
        | String c1 rest1 =>
            match utf8_cont c1 with
            | Some x1 => option_map (cons ((b0 - 192) * 64 + x1)) (utf8_decode rest1)
            | None => None
            end
        | EmptyString => None
        end
      else if (224 <=? b0) && (b0 <? 240) then
        match rest with
        | String c1 (String c2 rest2) =>
            match utf8_cont c1, utf8_cont c2 with
            | Some x1, Some x2 =>
                let cp := ((b0 - 224) * 64 + x1) * 64 + x2 in
                if (cp <? 2048) || ((55296 <=? cp) && (cp <? 57344)) then None
                else option_map (cons cp) (utf8_decode rest2)
            | _, _ => None
            end
        | _ => None
        end
      else if (240 <=? b0) && (b0 <? 245) then
        match rest with
        | String c1 (String c2 (String c3 rest3)) =>
            match utf8_cont c1, utf8_cont c2, utf8_cont c3 with
            | Some x1, Some x2, Some x3 =>
                let cp := (((b0 - 240) * 64 + x1) * 64 + x2) * 64 + x3 in
                if (cp <? 65536) || (1114111 <? cp) then None
                else option_map (cons cp) (utf8_decode rest3)
            | _, _, _ => None
            end
        | _ => None
        end
      else None
  end.

(** [Py_UNICODE_ISSPACE] above U+007F (Unicode 15.0). *)
Definition unicode_space (ch : Z) : bool :=
  (ch =? 0x85) || (ch =? 0xA0) || (ch =? 0x1680)
  || ((0x2000 <=? ch) && (ch <=? 0x200A))
  || (ch =? 0x2028) || (ch =? 0x2029) || (ch =? 0x202F) || (ch =? 0x205F)
  || (ch =? 0x3000).

(** The digit zero of each run of ten decimal digits (general category Nd)
    in Unicode 15.0, the database of CPython 3.12. *)
Definition nd_zeros : list Z :=
  [0x0030; 0x0660; 0x06F0; 0x07C0; 0x0966; 0x09E6; 0x0A66; 0x0AE6; 0x0B66;
   0x0BE6; 0x0C66; 0x0CE6; 0x0D66; 0x0DE6; 0x0E50; 0x0ED0; 0x0F20; 0x1040;
   0x1090; 0x17E0; 0x1810; 0x1946; 0x19D0; 0x1A80; 0x1A90; 0x1B50; 0x1BB0;
   0x1C40; 0x1C50; 0xA620; 0xA8D0; 0xA900; 0xA9D0; 0xA9F0; 0xAA50; 0xABF0;
   0xFF10; 0x104A0; 0x10D30; 0x11066; 0x110F0; 0x11136; 0x111D0; 0x112F0;
   0x11450; 0x114D0; 0x11650; 0x116C0; 0x11730; 0x118E0; 0x11950; 0x11C50;
   0x11D50; 0x11DA0; 0x11F50; 0x16A60; 0x16AC0; 0x16B50; 0x1D7CE; 0x1D7D8;
   0x1D7E2; 0x1D7EC; 0x1D7F6; 0x1E140; 0x1E2F0; 0x1E4F0; 0x1E950; 0x1FBF0].

(** [Py_UNICODE_TODECIMAL]: the digit value, if [ch] is a decimal digit. *)
Fixpoint to_decimal_in (zeros : list Z) (ch : Z) : option Z :=
  match zeros with
  | [] => None
  | z :: rest => if (z <=? ch) && (ch <=? z + 9) then Some (ch - z) else to_decimal_in rest ch
  end.

Definition to_decimal (ch : Z) : option Z := to_decimal_in nd_zeros ch.

(** The loop of [_PyUnicode_TransformDecimalAndSpaceToASCII]: a code point
    below 127 is kept, a space becomes [' '], a decimal digit its ASCII
    digit, and anything else ['?'], where the output stops. *)
Fixpoint transform_loop (cps : list Z) : list Z :=
  match cps with
  | [] => []
  | ch :: rest =>
      if ch <? 127 then ch :: transform_loop rest
      else if unicode_space ch then 32 :: transform_loop rest
      else match to_decimal ch with
           | Some d => (48 + d) :: transform_loop rest
           | None => [63]
           end
  end.

(** [_PyUnicode_TransformDecimalAndSpaceToASCII]: an ASCII string is
    returned as it is. *)
Definition transform_decimal_and_space_to_ascii (cps : list Z) : list Z :=
  if forallb (fun ch => ch <? 128) cps then cps else transform_loop cps.

(** [Py_ISSPACE] on a byte. *)
Definition py_isspace (c : Z) : bool := (c =? 32) || ((9 <=? c) && (c <=? 13)).

Definition is_digit (c : Z) : bool := (48 <=? c) && (c <=? 57).

Fixpoint skip_spaces (l : list Z) : list Z :=
  match l with
  | c :: rest => if py_isspace c then skip_spaces rest else l
  | [] => []
  end.

(** The scan of [long_from_string_base] in base 10: digits and single
    underscores between digits; returns the number of digits, their value
    and what follows them, or [None] on a doubled or trailing underscore. *)
Fixpoint digit_run (l : list Z) (prev_us : bool) (ndigits acc : Z)
  : option (Z * Z * list Z) :=
  match l with
  | c :: rest =>
      if is_digit c then digit_run rest false (ndigits + 1) (acc * 10 + (c - 48))
      else if c =? 95 then
        if prev_us then None else digit_run rest true ndigits acc
      else if prev_us then None else Some (ndigits, acc, l)
  | [] => if prev_us then None else Some (ndigits, acc, [])
  end.

(** [sys.get_int_max_str_digits()] at its default. *)
Definition int_max_str_digits : Z := 4300.

(** [PyLong_FromString(buffer, &end, 10)] followed by the check of
    [PyLong_FromUnicodeObject] that the whole buffer was consumed: leading
    and trailing whitespace, an optional sign, no leading underscore, at
    least one digit. *)
Definition py_long_from_string (l : list Z) : Result Z :=
  let bad := py_exc "ValueError" "invalid literal for int() with base 10" in
  let l := skip_spaces l in
  let '(sign, l) :=
    match l with
    | c :: rest => if c =? 43 then (1, rest) else if c =? 45 then (-1, rest) else (1, l)
    | [] => (1, l)
    end in
  match l with
  | c :: _ => if c =? 95 then Err bad else
      match digit_run l false 0 0 with
      | Some (n, v, rest) =>
          if (n =? 0) || negb (match skip_spaces rest with [] => true | _ => false end)
          then Err bad
          else if int_max_str_digits <? n
          then Err (py_exc "ValueError"
                      "Exceeds the limit (4300 digits) for integer string conversion")
          else Ok (sign * v)
      | None => Err bad
      end
  | [] => Err bad
  end.

(** [float.__trunc__]: truncation toward zero. *)
Definition float_to_int (f : spec_float) : Result Z :=
  match f with
  | S754_zero _ => Ok 0
  | S754_infinity _ =>
      Err (py_exc "OverflowError" "cannot convert float infinity to integer")
  | S754_nan => Err (py_exc "ValueError" "cannot convert float NaN to integer")
  | S754_finite s m e =>
      let mag := Z.shiftl (Z.pos m) e in
      Ok (if s then - mag else mag)
  end.

(** [int(key)]: an [int] is itself, a [bool] is 0 or 1, a [float] is
    truncated, a [str] goes through [PyLong_FromUnicodeObject]; [None], a
    list or a dict raise [TypeError]. *)
Definition py_int (y : Yaml) : Result Z :=
  match y with
  | YInt z => Ok z
  | YBool b => Ok (if b then 1 else 0)
  | YFloat f => float_to_int f
  | YStr s =>
      match utf8_decode s with
      | Some cps => py_long_from_string (transform_decimal_and_space_to_ascii cps)
      | None => Err (py_exc "ValueError" "invalid literal for int() with base 10")
      end
  | _ => Err (py_exc "TypeError"
                "int() argument must be a string, a bytes-like object or a real number")
  end.

Definition validation_error : Fault := py_exc "ValidationError" "invalid field".

(** pydantic [str] field (no coercion from other YAML scalars). *)
Definition as_str (y : Yaml) : Result string :=
  match y with YStr s => Ok s | _ => Err validation_error end.

(** [RoundType(value)] and [RoundContextStrategy(value)]. *)
Definition parse_round_type (y : Yaml) : Result RoundType :=
  match y with
  | YStr "parallel" => Ok parallel
  | YStr "sequential" => Ok sequential
  | YStr "moderator" => Ok moderator
  | _ => Err (py_exc "ValueError" "is not a valid RoundType")
  end.

Definition parse_context_strategy (y : Yaml) : Result RoundContextStrategy :=
  match y with
  | YStr "topic_only" => Ok topic_only
  | YStr "full_transcript" => Ok full_transcript
  | _ => Err (py_exc "ValueError" "is not a valid RoundContextStrategy")
  end.

Definition load_round (cfg : Yaml) : Result RoundSpec :=
  let* t := yaml_index cfg "title" in
  let* ty := yaml_index cfg "type" in
  let* ty := parse_round_type ty in
  let* cs := yaml_index cfg "context_strategy" in
  let* cs := parse_context_strategy cs in
  let* pt := yaml_index cfg "prompt_template" in
  let* t := as_str t in
  let* pt := as_str pt in
  Ok {| title := t; round_type := ty; context_strategy := cs; prompt_template := pt |}.

(** The [for key, cfg in raw_rounds.items()] loop. *)
Fixpoint load_rounds (items : list (Yaml * Yaml)) (acc : RoundsByNumber)
  : Result RoundsByNumber :=
  match items with
  | [] => Ok acc
  | (key, cfg) :: rest =>
      let* round_number := py_int key in
      let* rs := load_round cfg in
      load_rounds rest (dict_set acc round_number rs)
  end.

(** [load_debate_spec_from_yaml], from the value [safe_load] returned. *)
Definition load_debate_spec_from_yaml (loaded : Yaml) : Result DebateSpec :=
  let raw := if yaml_truthy loaded then loaded else YMap [] in
  let* raw_rounds := yaml_get raw "rounds" (YMap []) in
  match raw_rounds with
  | YMap items => let* rs := load_rounds items [] in Ok {| rounds := rs |}
  | _ => Err (py_exc "AttributeError" "object has no attribute 'items'")
  end.

(* ------------------------------------------------------------------ *)
(** ** models.py and the orchestrator's data *)

Record Agent := {
  id : string;
  name : string;
  description : string;
  system_prompt : string;
  tags : list string;
  is_built_in : bool;
  created_at : Z;
  usage_count : Z;
  color : string;
  icon : string
}.

(** A transcript entry: the dict built by [_create_transcript_entry]. *)
Record TranscriptEntry := {
  entry_agent : string;
  entry_role : string;
  entry_round : Z;
  entry_content : string;
  entry_color : string;
  entry_icon : string
}.

(** The [agent: models.Agent | str] argument of [_create_transcript_entry]. *)
Inductive Speaker :=
| AgentSpeaker (a : Agent)
| NameSpeaker (s : string).

(** The [status_context] dicts the nodes produce. *)
Inductive StatusContext :=
| SCode (code : string)
| SRoundStarting (round_number : Z) (round_title : string) (rtype : string)
| SAgentTurnStarting (round_number : Z) (round_title : string)
    (agent_name agent_icon : string).

Definition StatusContext_eq_dec (a b : StatusContext) : {a = b} + {a <> b}.
Proof. decide equality; first [apply string_dec | apply Z.eq_dec]. Defined.

Inductive Message :=
| SystemMessage (content : string)
| HumanMessage (content : string).

(** The completion collaborator [self.llm.ainvoke]: the response's
    [content], or the exception it raises. *)
Definition LLM := list Message -> string + PyExc.

(** The orchestrator object: [self.agents], [self.debate_spec], [self.llm];
    [orch_shuffle r l] is the order [random.shuffle] leaves [l] in during the
    set-up of round [r] (the module-global random source, as an oracle). *)
Record Orchestrator := {
  orch_agents : list Agent;
  orch_spec : DebateSpec;
  orch_llm : LLM;
  orch_shuffle : Z -> list Agent -> list Agent
}.

(** [DebateState] (a [TypedDict]). *)
Record DebateState := {
  topic : string;
  agents : list Agent;
  debate_transcript : list TranscriptEntry;
  current_round : Z;
  round_agent_order : list Agent;
  current_agent_index : nat;
  status_context : option StatusContext;
  last_speaker_id : option string
}.

(** A node's return value: the keys it sets ([None] = key absent). *)
Record Patch := {
  p_debate_transcript : option (list TranscriptEntry);
  p_current_round : option Z;
  p_round_agent_order : option (list Agent);
  p_current_agent_index : option nat;
  p_status_context : option StatusContext;
  p_last_speaker_id : option (option string)
}.

Definition upd {A} (o : option A) (old : A) : A :=
  match o with Some v => v | None => old end.

(** LangGraph's [LastValue] channels: each key present overwrites. *)
Definition apply_patch (p : Patch) (st : DebateState) : DebateState := {|
  topic := topic st;
  agents := agents st;
  debate_transcript := upd (p_debate_transcript p) (debate_transcript st);
  current_round := upd (p_current_round p) (current_round st);
  round_agent_order := upd (p_round_agent_order p) (round_agent_order st);
  current_agent_index := upd (p_current_agent_index p) (current_agent_index st);
  status_context := upd (option_map Some (p_status_context p)) (status_context st);
  last_speaker_id := upd (p_last_speaker_id p) (last_speaker_id st)
|}.

(* ------------------------------------------------------------------ *)
(** ** Helpers of [LangGraphDebateOrchestrator] *)

Fixpoint insert_sorted (x : Z) (l : list Z) : list Z :=
  match l with
  | [] => [x]
  | y :: ys => if x <=? y then x :: l else y :: insert_sorted x ys
  end.

Fixpoint sort_Z (l : list Z) : list Z :=
  match l with
  | [] => []
  | x :: xs => insert_sorted x (sort_Z xs)
  end.

(** [sorted(self.debate_spec.rounds.keys())]. *)
Definition ordered_rounds (s : DebateSpec) : list Z := sort_Z (map fst (rounds s)).

Fixpoint first_greater (rs : list Z) (current_round : Z) : option Z :=
  match rs with
  | [] => None
  | r :: rest => if current_round <? r then Some r else first_greater rest current_round
  end.

(** [_next_round_number]. *)
Definition next_round_number (s : DebateSpec) (current_round : Z) : Z :=
  match first_greater (ordered_rounds s) current_round with
  | Some r => r
  | None => current_round + 1
  end.

Definition round_label (round_number : Z) : string :=
  String.append "Round " (z_to_string round_number).

(** [_title_for]: [title_for_round(n) or round_titles.get(n) or f"Round {n}"];
    [round_titles] holds the same titles as the spec, so an empty title
    falls through to the label. *)
Definition title_for (s : DebateSpec) (round_number : Z) : string :=
  match title_for_round s round_number with
  | Some t => if String.eqb t EmptyString then round_label round_number else t
  | None => round_label round_number
  end.

Definition moderator_icon : string :=
  String (ascii_of_nat 195) (String (ascii_of_nat 176) (String (ascii_of_nat 197)
  (String (ascii_of_nat 184) (String (ascii_of_nat 197) (String (ascii_of_nat 189)
  (String (ascii_of_nat 194) (String (ascii_of_nat 164) EmptyString))))))).

(** [_create_transcript_entry]. *)
Definition create_transcript_entry (agent : Speaker) (response : string)
    (round_num : Z) : TranscriptEntry :=
  match agent with
  | AgentSpeaker a => {|
      entry_agent := name a;
      entry_role := match tags a with t :: _ => t | [] => "debater" end;
      entry_round := round_num;
      entry_content := response;
      entry_color := color a;
      entry_icon := icon a |}
  | NameSpeaker _ => {|
      entry_agent := "Moderator";
      entry_role := "moderator";
      entry_round := round_num;
      entry_content := response;
      entry_color := "#6B7280";
      entry_icon := moderator_icon |}
  end.

(** [_build_round_context]: the context assembler. *)
Definition build_round_context (st : DebateState) (strategy : RoundContextStrategy)
  : string :=
  match strategy with
  | topic_only => topic st
  | full_transcript =>
      join nl
        ([String.append "Original Topic: " (topic st); "";
          "Full Debate Transcript So Far:"]
         ++ flat_map (fun entry =>
              [""; String.append (entry_agent entry)
                     (String.append " (Round "
                       (String.append (z_to_string (entry_round entry)) "):"));
               entry_content entry])
            (debate_transcript st))
  end.

(** Python truthiness of [exclude_first_agent_id: str | None]. *)
Definition str_truthy (s : option string) : bool :=
  match s with Some v => negb (String.eqb v EmptyString) | None => false end.

(** [_get_randomized_agents]: [shuffle] is what [random.shuffle] does to
    [agents_copy]. *)
Definition get_randomized_agents (self_agents : list Agent)
    (shuffle : list Agent -> list Agent) (exclude_first_agent_id : option string)
  : list Agent :=
  match self_agents with
  | [] => []
  | _ =>
      let agents_copy := shuffle self_agents in
      match agents_copy with
      | first :: rest =>
          if str_truthy exclude_first_agent_id
             && (1 <? Z.of_nat (length agents_copy))
             && (match exclude_first_agent_id with
                 | Some x => String.eqb (id first) x | None => false end)
          then rest ++ [first]
          else agents_copy
      | [] => agents_copy
      end
  end.

(** [_invoke_agent]: only [ValueError], [RuntimeError] and
    [ConnectionError] are caught. *)
Definition caught_by_invoke (c : ExcClass) : bool :=
  match c with
  | ValueError | RuntimeError | ConnectionError => true
  | TimeoutError | OtherException _ => false
  end.

Definition invoke_messages (agent : option Agent) (prompt_template content : string)
  : list Message :=
  match agent with
  | Some a => [SystemMessage (system_prompt a)]
  | None => []
  end ++ [SystemMessage prompt_template; HumanMessage content].

Definition fallback_text (who msg : string) : string :=
  String.append "Error generating response for "
    (String.append who (String.append ": " msg)).

Definition invoke_agent (o : Orchestrator) (agent : option Agent)
    (prompt_template content : string) : Result string :=
  match orch_llm o (invoke_messages agent prompt_template content) with
  | inl text => Ok text
  | inr e =>
      if caught_by_invoke (exc_class e) then
        let who := match agent with None => "Moderator" | Some a => name a end in
        Ok (fallback_text who (exc_str e))
      else Err (Raised e)
  end.

Definition lookup_round (o : Orchestrator) (r : Z) : Result RoundSpec :=
  match dict_get (rounds (orch_spec o)) r with
  | Some cfg => Ok cfg
  | None => Err KeyError
  end.

Definition type_or (o : Orchestrator) (r : Z) (default : string) : string :=
  match type_for_round (orch_spec o) r with
  | Some t => round_type_str t
  | None => default
  end.

(* ------------------------------------------------------------------ *)
(** ** The graph's nodes *)

Definition status_patch (s : StatusContext) : Patch := {|
  p_debate_transcript := None; p_current_round := None;
  p_round_agent_order := None; p_current_agent_index := None;
  p_status_context := Some s; p_last_speaker_id := None |}.

(** [_route_debate]. *)
Definition route_code (o : Orchestrator) (st : DebateState) : string :=
  match type_for_round (orch_spec o) (current_round st) with
  | None => "END"
  | Some parallel => "OPENING_STATEMENTS"
  | Some sequential =>
      match round_agent_order st with
      | [] => "SETUP_SEQUENTIAL_ROUND"
      | _ => "SEQUENTIAL_TURN"
      end
  | Some moderator => "MODERATOR_ROUND"
  end.

Definition route_debate (o : Orchestrator) (st : DebateState) : Patch :=
  status_patch (SCode (route_code o st)).

(** [_execute_parallel_round]; [asyncio.gather] returns the results in task
    order (an uncaught exception of any task propagates out of [gather]). *)
Definition execute_parallel_round (o : Orchestrator) (st : DebateState)
  : Result Patch :=
  let r := current_round st in
  let status := SRoundStarting r (title_for (orch_spec o) r) (type_or o r "parallel") in
  let* round_cfg := lookup_round o r in
  let content := build_round_context st (context_strategy round_cfg) in
  let* results := mapM (fun a => invoke_agent o (Some a) (prompt_template round_cfg) content)
                       (orch_agents o) in
  Ok {| p_debate_transcript :=
          Some (debate_transcript st
                ++ map (fun '(a, response) =>
                          create_transcript_entry (AgentSpeaker a) response r)
                       (combine (orch_agents o) results));
        p_current_round := Some (next_round_number (orch_spec o) r);
        p_round_agent_order := None; p_current_agent_index := None;
        p_status_context := Some status; p_last_speaker_id := None |}.

(** [_setup_sequential_round]. *)
Definition setup_sequential_round (o : Orchestrator) (st : DebateState) : Patch :=
  let r := current_round st in
  let status := SRoundStarting r (title_for (orch_spec o) r) (type_or o r "sequential") in
  {| p_debate_transcript := None; p_current_round := None;
     p_round_agent_order :=
       Some (get_randomized_agents (orch_agents o) (orch_shuffle o r)
               (last_speaker_id st));
     p_current_agent_index := None;
     p_status_context := Some status; p_last_speaker_id := None |}.

(** [_execute_sequential_turn]. *)
Definition execute_sequential_turn (o : Orchestrator) (st : DebateState)
  : Result Patch :=
  let round_num := current_round st in
  let agent_index := current_agent_index st in
  match nth_error (round_agent_order st) agent_index with
  | None => Err IndexError
  | Some agent =>
      match title_for_round (orch_spec o) round_num with
      | None => Err KeyError
      | Some round_title =>
          let status := SAgentTurnStarting round_num round_title (name agent) (icon agent) in
          let* round_cfg := lookup_round o round_num in
          let content := build_round_context st (context_strategy round_cfg) in
          let* response := invoke_agent o (Some agent) (prompt_template round_cfg) content in
          let current_transcript :=
            debate_transcript st
            ++ [create_transcript_entry (AgentSpeaker agent) response round_num] in
          let next_agent_index := S agent_index in
          if Nat.leb (length (round_agent_order st)) next_agent_index then
            Ok {| p_debate_transcript := Some current_transcript;
                  p_current_round := Some (next_round_number (orch_spec o) round_num);
                  p_round_agent_order := Some [];
                  p_current_agent_index := Some O;
                  p_status_context := Some status;
                  p_last_speaker_id := Some (Some (id agent)) |}
          else
            Ok {| p_debate_transcript := Some current_transcript;
                  p_current_round := None;
                  p_round_agent_order := None;
                  p_current_agent_index := Some next_agent_index;
                  p_status_context := Some status;
                  p_last_speaker_id := None |}
      end
  end.

(** [_execute_moderator_round]. *)
Definition execute_moderator_round (o : Orchestrator) (st : DebateState)
  : Result Patch :=
  let r := current_round st in
  let status := SRoundStarting r (title_for (orch_spec o) r) (type_or o r "moderator") in
  let* round_cfg := lookup_round o r in
  let content := build_round_context st (context_strategy round_cfg) in
  let* response := invoke_agent o None (prompt_template round_cfg) content in
  Ok {| p_debate_transcript :=
          Some (debate_transcript st
                ++ [create_transcript_entry (NameSpeaker "Moderator") response r]);
        p_current_round := Some (next_round_number (orch_spec o) r);
        p_round_agent_order := None; p_current_agent_index := None;
        p_status_context := Some status; p_last_speaker_id := None |}.

(* ------------------------------------------------------------------ *)
(** ** The compiled graph ([_build_debate_graph]) *)

Inductive Node :=
| n_route_debate
| n_execute_parallel_round
| n_setup_sequential_round
| n_execute_sequential_turn
| n_execute_moderator_round.

Inductive Target := ToNode (n : Node) | ToEND.

Definition run_node (o : Orchestrator) (n : Node) (st : DebateState) : Result Patch :=
  match n with
  | n_route_debate => Ok (route_debate o st)
  | n_execute_parallel_round => execute_parallel_round o st
  | n_setup_sequential_round => Ok (setup_sequential_round o st)
  | n_execute_sequential_turn => execute_sequential_turn o st
  | n_execute_moderator_round => execute_moderator_round o st
  end.

(** The conditional edge out of [route_debate] reads
    [state["status_context"]["code"]]; every other node goes back to
    [route_debate]. *)
Definition next_target (n : Node) (st : DebateState) : Result Target :=
  match n with
  | n_route_debate =>
      match status_context st with
      | Some (SCode "OPENING_STATEMENTS") => Ok (ToNode n_execute_parallel_round)
      | Some (SCode "SETUP_SEQUENTIAL_ROUND") => Ok (ToNode n_setup_sequential_round)
      | Some (SCode "SEQUENTIAL_TURN") => Ok (ToNode n_execute_sequential_turn)
      | Some (SCode "MODERATOR_ROUND") => Ok (ToNode n_execute_moderator_round)
      | Some (SCode "END") => Ok ToEND
      | _ => Err KeyError
      end
  | _ => Ok (ToNode n_route_debate)
  end.

(* ------------------------------------------------------------------ *)
(** ** [run_debate]: the driver

    [graph.astream] (stream mode "updates") yields [{node: patch}] after
    every super-step; [run_debate] turns each patch into SSE events. An
    event is kept as the payload [_create_sse_event] serialises. *)

Inductive Event :=
| status_update (s : StatusContext)
| agent_response (e : TranscriptEntry)
| debate_complete.

Record Config := {
  cfg_node : Node;
  cfg_state : DebateState;
  cfg_last_status : option StatusContext;
  cfg_last_index : nat;
  cfg_events : list Event
}.

(** The body of the [async for] loop for one patch: the events it yields
    and the new [last_status_context] and [last_transcript_index]. *)
Definition observe (p : Patch) (last_status : option StatusContext) (last_index : nat)
  : list Event * option StatusContext * nat :=
  let '(ev1, ls) :=
    match p_status_context p with
    | Some s =>
        match last_status with
        | Some l => if StatusContext_eq_dec s l then ([], last_status)
                    else ([status_update s], Some s)
        | None => ([status_update s], Some s)
        end
    | None => ([], last_status)
    end in
  let transcript := upd (p_debate_transcript p) [] in
  if Nat.ltb last_index (length transcript) then
    (ev1 ++ map agent_response (skipn last_index transcript), ls, length transcript)
  else (ev1, ls, last_index).

Inductive StepResult :=
| Next (c : Config)
| Finish (c : Config)
| Stop (events : list Event) (f : Fault).

(** One super-step: run the node, apply and observe its patch, follow the
    edge. *)
Definition step (o : Orchestrator) (c : Config) : StepResult :=
  match run_node o (cfg_node c) (cfg_state c) with
  | Err f => Stop (cfg_events c) f
  | Ok p =>
      let st' := apply_patch p (cfg_state c) in
      let '(evs, ls, li) := observe p (cfg_last_status c) (cfg_last_index c) in
      let c' n := {| cfg_node := n; cfg_state := st'; cfg_last_status := ls;
                     cfg_last_index := li; cfg_events := cfg_events c ++ evs |} in
      match next_target (cfg_node c) st' with
      | Err f => Stop (cfg_events c ++ evs) f
      | Ok ToEND => Finish (c' (cfg_node c))
      | Ok (ToNode n) => Next (c' n)
      end
  end.

Inductive Outcome :=
| Completed (events : list Event)
| Aborted (events : list Event) (f : Fault).

(** LangGraph's [recursion_limit]: every tick of the Pregel loop first
    checks the step counter against the limit and only then looks for the
    tasks to run, so at most [budget] super-steps run, and the tick that
    would find no task left after [END] also needs a step of the budget: a
    run whose last super-step is the [budget]-th one still raises
    [GraphRecursionError]. After [END] the driver yields [debate_complete]. *)
Fixpoint drive (o : Orchestrator) (budget : nat) (c : Config) : Outcome :=
  match budget with
  | O => Aborted (cfg_events c) GraphRecursionError
  | S b =>
      match step o c with
      | Stop evs f => Aborted evs f
      | Finish c' =>
          match b with
          | O => Aborted (cfg_events c') GraphRecursionError
          | S _ => Completed (cfg_events c' ++ [debate_complete])
          end
      | Next c' => drive o b c'
      end
  end.

Definition initial_state (o : Orchestrator) (tpc : string) (r0 : Z) : DebateState := {|
  topic := tpc; agents := orch_agents o; debate_transcript := [];
  current_round := r0; round_agent_order := []; current_agent_index := O;
  status_context := None; last_speaker_id := None |}.

Definition initial_config (o : Orchestrator) (tpc : string) (r0 : Z) : Config := {|
  cfg_node := n_route_debate; cfg_state := initial_state o tpc r0;
  cfg_last_status := None; cfg_last_index := O; cfg_events := [] |}.

(** [run_debate] with the graph run under a given recursion limit;
    [self._ordered_rounds[0]] raises [IndexError] on a spec without rounds. *)
Definition run_debate_with_limit (o : Orchestrator) (recursion_limit : nat)
    (tpc : string) : Outcome :=
  match ordered_rounds (orch_spec o) with
  | [] => Aborted [] IndexError
  | r0 :: _ => drive o recursion_limit (initial_config o tpc r0)
  end.

(** The LangGraph releases the repository may run on: it pins none. *)
Inductive LangGraphRelease :=
| langgraph_up_to_1_0
| langgraph_from_1_1.

(** LangGraph's default [recursion_limit], used when [astream] gets no
    [config]: 25 up to release 1.0, 10000 from release 1.1 on. *)
Definition langgraph_default_recursion_limit (rel : LangGraphRelease) : nat :=
  match rel with
  | langgraph_up_to_1_0 => 25
  | langgraph_from_1_1 => 10000
  end.

(** [run_debate] as written: [self.graph.astream(initial_state)] passes no
    [config], so the default recursion limit of the installed release
    applies. *)
Definition run_debate (rel : LangGraphRelease) (o : Orchestrator) (tpc : string) : Outcome :=
  run_debate_with_limit o (langgraph_default_recursion_limit rel) tpc.

(* ------------------------------------------------------------------ *)
(** ** The step budget *)

(** Modelled from the spec: [_calculate_recursion_limit], which is missing
    from the sources (its tests call it). Section 4.4 of the spec: a
    [parallel] (broadcast) or [moderator] (synthesis) round costs 2 steps, a
    [sequential] (turn-based) round costs [2 + participant_count * 2]; the
    total is 1 plus the sum over the rounds in ascending order; the limit is
    [ceil(total * 1.3)] clamped to [[25, 100]]. *)
Definition round_cost (participant_count : Z) (t : option RoundType) : Z :=
  match t with
  | Some sequential => 2 + participant_count * 2
  | Some parallel | Some moderator => 2
  | None => 0
  end.

Definition total_steps (s : DebateSpec) (participant_count : nat) : Z :=
  1 + fold_left (fun acc r => acc + round_cost (Z.of_nat participant_count)
                                                (type_for_round s r))
                (ordered_rounds s) 0.

(** [ceil(total * 1.3)] for an integer [total]: [ceil(13 * total / 10)]. *)
Definition ceil_scaled (total : Z) : Z := (13 * total + 9) / 10.

Definition calculate_recursion_limit (s : DebateSpec) (participant_count : nat) : Z :=
  Z.min 100 (Z.max 25 (ceil_scaled (total_steps s participant_count))).

(* ------------------------------------------------------------------ *)
(** ** Concrete inputs *)

Definition mk_agent (i n : string) : Agent := {|
  id := i; name := n; description := ""; system_prompt := String.append "persona " n;
  tags := []; is_built_in := false; created_at := 0; usage_count := 0;
  color := "#000000"; icon := "*" |}.

Definition mk_round (t : string) (ty : RoundType) (cs : RoundContextStrategy) : RoundSpec :=
  {| title := t; round_type := ty; context_strategy := cs; prompt_template := "P" |}.

(** The shape of the default spec (debate_constants.py): opening statements,
    rebuttal, surrebuttal, synthesis. *)
Definition four_round_spec : DebateSpec := {| rounds := [
  (1, mk_round "Opening Statements" parallel topic_only);
  (2, mk_round "Rebuttal" sequential full_transcript);
  (3, mk_round "Surrebuttal" sequential full_transcript);
  (4, mk_round "Synthesis" moderator full_transcript)] |}.

Definition five_agents : list Agent :=
  [mk_agent "a" "A"; mk_agent "b" "B"; mk_agent "c" "C"; mk_agent "d" "D";
   mk_agent "e" "E"].

Definition echo_llm : LLM := fun _ => inl "response".

Definition keep_order (_ : Z) (l : list Agent) : list Agent := l.

Definition orch5 : Orchestrator := {|
  orch_agents := five_agents; orch_spec := four_round_spec;
  orch_llm := echo_llm; orch_shuffle := keep_order |}.

(* ------------------------------------------------------------------ *)
(** * Properties *)

(** ** Sorted round numbers and [_next_round_number] *)

Lemma insert_sorted_perm (x : Z) (l : list Z) :
  Permutation (insert_sorted x l) (x :: l).
Proof.
  induction l as [|y ys IH]; simpl; [constructor; constructor|].
  destruct (x <=? y); [reflexivity|].
  rewrite IH. apply perm_swap.
Qed.

Lemma sort_Z_perm (l : list Z) : Permutation (sort_Z l) l.
Proof.
  induction l as [|x xs IH]; simpl; [constructor|].
  rewrite insert_sorted_perm. now constructor.
Qed.

Lemma insert_sorted_sorted (x : Z) (l : list Z) :
  StronglySorted Z.le l -> StronglySorted Z.le (insert_sorted x l).
Proof.
  induction l as [|y ys IH]; simpl; intros Hs.
  - constructor; constructor.
  - inversion Hs as [|? ? Hys Hall]; subst.
    destruct (Z.leb_spec x y).
    + constructor; [exact Hs|].
      constructor; [lia|].
      rewrite Forall_forall in *. intros k Hk. specialize (Hall k Hk). lia.
    + constructor; [now apply IH|].
      rewrite Forall_forall in *. intros k Hk.
      apply (Permutation_in _ (insert_sorted_perm x ys)) in Hk.
      destruct Hk as [<-|Hk]; [lia|now apply Hall].
Qed.

Lemma sort_Z_sorted (l : list Z) : StronglySorted Z.le (sort_Z l).
Proof.
  induction l; simpl; [constructor|]. now apply insert_sorted_sorted.
Qed.

Lemma in_ordered_rounds (s : DebateSpec) (k : Z) :
  In k (ordered_rounds s) <-> dict_get (rounds s) k <> None.
Proof.
  unfold ordered_rounds. split.
  - intros Hin. apply (Permutation_in _ (sort_Z_perm _)) in Hin.
    induction (rounds s) as [|[k' v] rest IH]; simpl in *; [contradiction|].
    destruct (Z.eqb_spec k k'); [discriminate|].
    destruct Hin as [Hin|Hin]; [simpl in Hin; congruence|auto].
  - intros Hget. apply (Permutation_in _ (Permutation_sym (sort_Z_perm _))).
    induction (rounds s) as [|[k' v] rest IH]; simpl in *; [congruence|].
    destruct (Z.eqb_spec k k'); [now left|right; auto].
Qed.

Lemma first_greater_some (l : list Z) (r r' : Z) :
  StronglySorted Z.le l -> first_greater l r = Some r' ->
  In r' l /\ r < r' /\ (forall k, In k l -> r < k -> r' <= k).
Proof.
  induction l as [|x xs IH]; simpl; intros Hs H; [discriminate|].
  inversion Hs as [|? ? Hxs Hall]; subst. rewrite Forall_forall in Hall.
  destruct (Z.ltb_spec r x).
  - injection H as <-. repeat split; [now left|lia|].
    intros k [<-|Hk] _; [lia|now apply Hall].
  - destruct (IH Hxs H) as (Hin & Hlt & Hmin). repeat split; [now right|lia|].
    intros k [<-|Hk] Hrk; [lia|now apply Hmin].
Qed.

Lemma first_greater_none (l : list Z) (r : Z) :
  first_greater l r = None -> forall k, In k l -> k <= r.
Proof.
  induction l as [|x xs IH]; simpl; intros H k Hk; [contradiction|].
  destruct (Z.ltb_spec r x); [discriminate|].
  destruct Hk as [<-|Hk]; [lia|now apply IH].
Qed.

Definition is_round (s : DebateSpec) (k : Z) : Prop := dict_get (rounds s) k <> None.

(** [_next_round_number r] is the smallest round number of the spec above
    [r], or [r + 1] when there is none. *)
Lemma next_round_number_spec (s : DebateSpec) (r : Z) :
  (is_round s (next_round_number s r) /\ r < next_round_number s r /\
   forall k, is_round s k -> r < k -> next_round_number s r <= k)
  \/ ((forall k, is_round s k -> k <= r) /\ next_round_number s r = r + 1).
Proof.
  unfold next_round_number, is_round.
  destruct (first_greater (ordered_rounds s) r) as [r'|] eqn:E.
  - left. destruct (first_greater_some _ _ _ (sort_Z_sorted _) E) as (Hin & Hlt & Hmin).
    repeat split; [now apply in_ordered_rounds|lia|].
    intros k Hk Hrk. apply Hmin; [now apply in_ordered_rounds|lia].
  - right. split; [|reflexivity].
    intros k Hk. apply (first_greater_none _ _ E). now apply in_ordered_rounds.
Qed.

Lemma next_round_number_gt (s : DebateSpec) (r : Z) : r < next_round_number s r.
Proof. destruct (next_round_number_spec s r) as [(_ & H & _)|(_ & ->)]; lia. Qed.

(** ** The step budget *)

Fixpoint sumZ (l : list Z) : Z :=
  match l with [] => 0 | x :: xs => x + sumZ xs end.

Lemma fold_left_add_sum {A} (f : A -> Z) (l : list A) (a : Z) :
  fold_left (fun acc r => acc + f r) l a = a + sumZ (map f l).
Proof.
  revert a. induction l as [|x xs IH]; intros a; simpl; [lia|].
  rewrite IH. lia.
Qed.

Lemma ceil_scaled_is_ceil (total : Z) :
  13 * total <= 10 * ceil_scaled total < 13 * total + 10.
Proof. unfold ceil_scaled. pose proof (Z.mod_pos_bound (13 * total + 9) 10). pose proof (Z.div_mod (13 * total + 9) 10). lia. Qed.

(** C1. The limit is [ceil(total * 1.3)] clamped to [[25, 100]], where the
    total is 1 plus the per-round costs (2 for a broadcast or synthesis
    round, [2 + 2 n] for a turn-based round) over the rounds in ascending
    order; it always lies in [[25, 100]]; a single broadcast round gives 25
    for every participant count. *)
Theorem calculate_recursion_limit_spec (s : DebateSpec) (n : nat) :
  let total := 1 + sumZ (map (fun r => round_cost (Z.of_nat n) (type_for_round s r))
                             (ordered_rounds s)) in
  calculate_recursion_limit s n = Z.min 100 (Z.max 25 (ceil_scaled total))
  /\ 13 * total <= 10 * ceil_scaled total < 13 * total + 10
  /\ (forall t, round_cost (Z.of_nat n) (Some t) =
                match t with sequential => 2 + Z.of_nat n * 2 | _ => 2 end)
  /\ 25 <= calculate_recursion_limit s n <= 100
  /\ (forall k t cs tpl,
        calculate_recursion_limit
          {| rounds := [(k, {| title := t; round_type := parallel;
                               context_strategy := cs; prompt_template := tpl |})] |} n
        = 25).
Proof.
  intros total. split; [|split; [|split; [|split]]].
  - unfold calculate_recursion_limit, total_steps, total.
    now rewrite fold_left_add_sum, Z.add_0_l.
  - apply ceil_scaled_is_ceil.
  - now intros [].
  - unfold calculate_recursion_limit. lia.
  - intros k t cs tpl. unfold calculate_recursion_limit, total_steps, ordered_rounds,
      type_for_round. simpl. rewrite Z.eqb_refl. reflexivity.
Qed.

(** The four-round spec of [test_complex_debate_recursion_limit] with three
    participants: total 21, and [ceil(21 * 1.3) = 28] (the test expects 27,
    the value of [int(21 * 1.3)]). *)
Remark calculate_recursion_limit_total_21 :
  total_steps four_round_spec 3 = 21 /\ calculate_recursion_limit four_round_spec 3 = 28.
Proof. split; reflexivity. Qed.

(** ** Fairness shuffler *)

(** With a non-empty exclusion id, distinct ids and a shuffle that permutes,
    the order is a permutation, never starts with the excluded id when there
    are two participants or more, and a lone participant is kept. *)
Lemma get_randomized_agents_nonempty_exclusion (self_agents : list Agent)
    (shuffle : list Agent -> list Agent) (x : string) :
  Permutation (shuffle self_agents) self_agents ->
  NoDup (map id self_agents) -> x <> EmptyString ->
  Permutation (get_randomized_agents self_agents shuffle (Some x)) self_agents
  /\ ((1 < length self_agents)%nat -> forall a rest,
        get_randomized_agents self_agents shuffle (Some x) = a :: rest -> id a <> x)
  /\ (forall a, self_agents = [a] -> get_randomized_agents self_agents shuffle (Some x) = [a]).
Proof.
  intros Hperm Hnd Hx.
  assert (Hnd' : NoDup (map id (shuffle self_agents))).
  { eapply Permutation_NoDup; [apply Permutation_map, Permutation_sym, Hperm|exact Hnd]. }
  assert (Hlen := Permutation_length Hperm).
  assert (Htr : str_truthy (Some x) = true).
  { simpl. destruct (String.eqb_spec x EmptyString); [contradiction|reflexivity]. }
  unfold get_randomized_agents.
  destruct self_agents as [|a0 more] eqn:Ea.
  { repeat split; [constructor|simpl; lia|discriminate]. }
  rewrite <- Ea in *.
  destruct (shuffle self_agents) as [|f rest] eqn:Es.
  { simpl in Hlen. subst. discriminate. }
  rewrite Htr.
  destruct rest as [|g rest'].
  - (* one participant: the rotation guard is false *)
    replace (1 <? Z.of_nat (length [f]))%Z with false by reflexivity.
    simpl andb. repeat split.
    + exact Hperm.
    + intros Hgt. simpl in Hlen. lia.
    + intros a Ha. rewrite Ha in Hperm. symmetry in Hperm.
      now apply Permutation_length_1_inv in Hperm.
  - assert (Elt : (1 <? Z.of_nat (length (f :: g :: rest')))%Z = true).
    { apply Z.ltb_lt. simpl length. lia. }
    rewrite Elt. simpl andb.
    assert (Hnot1 : forall a, self_agents <> [a]).
    { intros a Ha. rewrite Ha in Hlen. simpl in Hlen. lia. }
    destruct (String.eqb_spec (id f) x) as [Hf|Hf].
    + repeat split.
      * eapply Permutation_trans; [|exact Hperm].
        apply Permutation_sym, Permutation_cons_append.
      * intros _ a r Har. simpl in Har. injection Har as <- _.
        simpl in Hnd'. apply NoDup_cons_iff in Hnd' as [Hnotin _].
        intros Hg. apply Hnotin. rewrite Hf, <- Hg. now left.
      * intros a Ha. now destruct (Hnot1 a Ha).
    + repeat split.
      * exact Hperm.
      * intros _ a r Har. now injection Har as <- _.
      * intros a Ha. now destruct (Hnot1 a Ha).
Qed.

(** C3 (code_bug). The guard tests [exclude_first_agent_id] for
    truthiness: the id [""] counts as no exclusion, so an order may start
    with the excluded participant. *)
Theorem get_randomized_agents_empty_id_not_excluded :
  get_randomized_agents [mk_agent "" "A"; mk_agent "b" "B"] (fun l => l) (Some "")
  = [mk_agent "" "A"; mk_agent "b" "B"].
Proof. reflexivity. Qed.

(** ** Transcript entries *)

(** C10. An entry for a participant takes the first tag as role, or
    ["debater"]; the synthesis entry is always the fixed Moderator identity,
    whatever the participants. *)
Theorem transcript_entry_roles (o : Orchestrator) (st : DebateState) (p : Patch) :
  execute_moderator_round o st = Ok p ->
  (forall a response r,
     create_transcript_entry (AgentSpeaker a) response r =
     {| entry_agent := name a;
        entry_role := match tags a with t :: _ => t | [] => "debater" end;
        entry_round := r; entry_content := response;
        entry_color := color a; entry_icon := icon a |})
  /\ exists response,
       p_debate_transcript p =
       Some (debate_transcript st ++
             [{| entry_agent := "Moderator"; entry_role := "moderator";
                 entry_round := current_round st; entry_content := response;
                 entry_color := "#6B7280"; entry_icon := moderator_icon |}]).
Proof.
  unfold execute_moderator_round. intros H. split; [reflexivity|].
  destruct (lookup_round o (current_round st)) as [cfg|f]; simpl in H; [|discriminate].
  destruct (invoke_agent o None _ _) as [resp|f]; simpl in H; [|discriminate].
  injection H as <-. now exists resp.
Qed.

Definition orch_two_moderated : Orchestrator := {|
  orch_agents := [mk_agent "a" "A"; mk_agent "b" "B"];
  orch_spec := {| rounds := [(1, mk_round "Synthesis" moderator full_transcript)] |};
  orch_llm := echo_llm; orch_shuffle := keep_order |}.

Lemma transcript_entry_roles_witness :
  exists p, execute_moderator_round orch_two_moderated
              (initial_state orch_two_moderated "T" 1) = Ok p /\
  exists response, p_debate_transcript p =
    Some [{| entry_agent := "Moderator"; entry_role := "moderator";
             entry_round := 1; entry_content := response;
             entry_color := "#6B7280"; entry_icon := moderator_icon |}].
Proof.
  eexists. split; [vm_compute; reflexivity|].
  apply (transcript_entry_roles orch_two_moderated
           (initial_state orch_two_moderated "T" 1)).
  vm_compute. reflexivity.
Defined.

(** ** The broadcast executor *)

Lemma mapM_length {A B} (f : A -> Result B) (l : list A) (ys : list B) :
  mapM f l = Ok ys -> length ys = length l.
Proof.
  revert ys. induction l as [|x xs IH]; simpl; intros ys H.
  - now injection H as <-.
  - destruct (f x) as [y|]; simpl in H; [|discriminate].
    destruct (mapM f xs) as [ys'|] eqn:E; simpl in H; [|discriminate].
    injection H as <-. simpl. now rewrite (IH ys').
Qed.

Lemma broadcast_entries_order (l : list Agent) (results : list string) (r : Z) :
  length results = length l ->
  map entry_agent (map (fun '(a, response) =>
                          create_transcript_entry (AgentSpeaker a) response r)
                       (combine l results)) = map name l
  /\ map entry_round (map (fun '(a, response) =>
                          create_transcript_entry (AgentSpeaker a) response r)
                       (combine l results)) = map (fun _ => r) l.
Proof.
  revert results. induction l as [|a l IH]; intros [|x xs] Hlen; simpl in *;
    try discriminate; [auto|].
  injection Hlen as Hlen. destruct (IH xs Hlen) as [H1 H2]. now rewrite H1, H2.
Qed.

Definition st_after_opening_route : DebateState := {|
  topic := "T"; agents := five_agents; debate_transcript := [];
  current_round := 1; round_agent_order := []; current_agent_index := O;
  status_context := Some (SCode "OPENING_STATEMENTS"); last_speaker_id := None |}.

(** C4, counterexample: the broadcast executor also replaces the status. *)
Lemma execute_parallel_round_sets_status :
  exists p, execute_parallel_round orch5 st_after_opening_route = Ok p
  /\ status_context (apply_patch p st_after_opening_route)
     <> status_context st_after_opening_route.
Proof. eexists. split; [vm_compute; reflexivity|]. vm_compute. discriminate. Qed.

(** C4, as amended. The broadcast executor appends one entry per
    participant in participant-list order, whatever the completion results,
    moves [current_round] to the next round number (the smallest defined
    one above, else [current_round + 1]), sets the ROUND_STARTING status,
    and leaves every other key as it was. *)
Theorem execute_parallel_round_effect (o : Orchestrator) (st : DebateState) (p : Patch) :
  execute_parallel_round o st = Ok p ->
  let r := current_round st in
  exists round_cfg results,
    lookup_round o r = Ok round_cfg
    /\ mapM (fun a => invoke_agent o (Some a) (prompt_template round_cfg)
                        (build_round_context st (context_strategy round_cfg)))
            (orch_agents o) = Ok results
    /\ length results = length (orch_agents o)
    /\ apply_patch p st = {|
         topic := topic st; agents := agents st;
         debate_transcript :=
           debate_transcript st
           ++ map (fun '(a, response) =>
                     create_transcript_entry (AgentSpeaker a) response r)
                  (combine (orch_agents o) results);
         current_round := next_round_number (orch_spec o) r;
         round_agent_order := round_agent_order st;
         current_agent_index := current_agent_index st;
         status_context :=
           Some (SRoundStarting r (title_for (orch_spec o) r) (type_or o r "parallel"));
         last_speaker_id := last_speaker_id st |}
    /\ map entry_agent (map (fun '(a, response) =>
                               create_transcript_entry (AgentSpeaker a) response r)
                            (combine (orch_agents o) results))
       = map name (orch_agents o)
    /\ ((is_round (orch_spec o) (next_round_number (orch_spec o) r)
         /\ r < next_round_number (orch_spec o) r
         /\ forall k, is_round (orch_spec o) k -> r < k ->
                      next_round_number (orch_spec o) r <= k)
        \/ ((forall k, is_round (orch_spec o) k -> k <= r)
            /\ next_round_number (orch_spec o) r = r + 1)).
Proof.
  intros H r. unfold execute_parallel_round in H.
  destruct (lookup_round o (current_round st)) as [cfg|f] eqn:El; simpl in H; [|discriminate].
  destruct (mapM _ (orch_agents o)) as [results|f] eqn:Em; simpl in H; [|discriminate].
  injection H as <-.
  assert (Hlen := mapM_length _ _ _ Em).
  exists cfg, results. repeat split; auto.
  - now apply broadcast_entries_order.
  - apply next_round_number_spec.
Qed.

Lemma execute_parallel_round_effect_witness :
  exists p, execute_parallel_round orch5 st_after_opening_route = Ok p /\
  exists round_cfg (results : list string),
    lookup_round orch5 1 = Ok round_cfg /\ length results = 5%nat /\
    current_round (apply_patch p st_after_opening_route) = 2.
Proof.
  eexists. split; [vm_compute; reflexivity|].
  destruct (execute_parallel_round_effect orch5 st_after_opening_route _
              ltac:(vm_compute; reflexivity))
    as (cfg & results & Hl & _ & Hlen & Hst & _).
  exists cfg, results. rewrite Hst.
  split; [exact Hl|split; [exact Hlen|]].
  vm_compute. reflexivity.
Defined.

(** ** The turn-step executor *)

(** C6. A turn appends one entry for the acting participant. After the
    last index of [round_agent_order] it moves to the next round, clears the
    order, resets the index and records the speaker; before that it only
    increments the index, keeping round, order and last speaker. *)
Theorem execute_sequential_turn_effect (o : Orchestrator) (st : DebateState) (p : Patch) :
  execute_sequential_turn o st = Ok p ->
  let st' := apply_patch p st in
  let idx := current_agent_index st in
  exists agent response,
    nth_error (round_agent_order st) idx = Some agent
    /\ debate_transcript st' =
       debate_transcript st
       ++ [create_transcript_entry (AgentSpeaker agent) response (current_round st)]
    /\ (S idx = length (round_agent_order st) ->
          current_round st' = next_round_number (orch_spec o) (current_round st)
          /\ round_agent_order st' = []
          /\ current_agent_index st' = O
          /\ last_speaker_id st' = Some (id agent))
    /\ ((S idx < length (round_agent_order st))%nat ->
          current_agent_index st' = S idx
          /\ current_round st' = current_round st
          /\ round_agent_order st' = round_agent_order st
          /\ last_speaker_id st' = last_speaker_id st)
    /\ topic st' = topic st /\ agents st' = agents st.
Proof.
  intros H st' idx. unfold execute_sequential_turn in H.
  destruct (nth_error (round_agent_order st) (current_agent_index st)) as [agent|] eqn:En;
    [|discriminate].
  destruct (title_for_round (orch_spec o) (current_round st)) as [rt|]; [|discriminate].
  destruct (lookup_round o (current_round st)) as [cfg|f]; simpl in H; [|discriminate].
  destruct (invoke_agent o (Some agent) _ _) as [resp|f]; simpl in H; [|discriminate].
  assert (Hlt := proj1 (nth_error_Some (round_agent_order st) (current_agent_index st))
                   ltac:(congruence)).
  exists agent, resp. split; [exact En|].
  destruct (Nat.leb_spec (length (round_agent_order st)) (S (current_agent_index st)));
    injection H as <-; subst st' idx; simpl.
  - repeat split; auto; intros; lia.
  - repeat split; auto; intros; lia.
Qed.

Definition st_rebuttal_turn : DebateState := {|
  topic := "T"; agents := five_agents; debate_transcript := [];
  current_round := 2; round_agent_order := five_agents; current_agent_index := 4;
  status_context := Some (SCode "SEQUENTIAL_TURN"); last_speaker_id := None |}.

Lemma execute_sequential_turn_effect_witness :
  exists p, execute_sequential_turn orch5 st_rebuttal_turn = Ok p
  /\ current_round (apply_patch p st_rebuttal_turn) = 3
  /\ last_speaker_id (apply_patch p st_rebuttal_turn) = Some "e".
Proof.
  eexists. split; [vm_compute; reflexivity|].
  destruct (execute_sequential_turn_effect orch5 st_rebuttal_turn _
              ltac:(vm_compute; reflexivity)) as (agent & resp & Hn & _ & Hlast & _).
  vm_compute in Hn. injection Hn as <-.
  destruct (Hlast eq_refl) as (Hr & _ & _ & Hl).
  rewrite Hr, Hl. split; reflexivity.
Defined.

(** ** The context assembler *)

Lemma string_append_empty_r (s : string) : String.append s EmptyString = s.
Proof. induction s; simpl; congruence. Qed.

Definition entry_header (e : TranscriptEntry) : string :=
  String.append (entry_agent e)
    (String.append " (Round " (String.append (z_to_string (entry_round e)) "):")).

(** Each entry as a blank line followed by its block
    ["{speaker} (Round {round}):\n{content}"]. *)
Fixpoint rendered_blocks (t : list TranscriptEntry) : string :=
  match t with
  | [] => EmptyString
  | e :: rest =>
      String.append nl (String.append nl (String.append (entry_header e)
        (String.append nl (String.append (entry_content e) (rendered_blocks rest)))))
  end.

Lemma join_cons2 (sep x y : string) (r : list string) :
  join sep (x :: y :: r) = String.append x (String.append sep (join sep (y :: r))).
Proof. reflexivity. Qed.

Lemma join_transcript_lines (x : string) (t : list TranscriptEntry) :
  join nl (x :: flat_map (fun entry =>
              [""; String.append (entry_agent entry)
                     (String.append " (Round "
                       (String.append (z_to_string (entry_round entry)) "):"));
               entry_content entry]) t)
  = String.append x (rendered_blocks t).
Proof.
  revert x. induction t as [|e rest IH]; intros x.
  - simpl. now rewrite string_append_empty_r.
  - cbn [flat_map app]. rewrite !join_cons2, IH. reflexivity.
Qed.

Definition st_topic_only : DebateState := {|
  topic := "T"; agents := []; debate_transcript := [];
  current_round := 1; round_agent_order := []; current_agent_index := O;
  status_context := None; last_speaker_id := None |}.

(** C8, counterexample: with no transcript yet, the full-transcript context
    is not the topic alone: it carries the ["Original Topic: "] label and
    the ["Full Debate Transcript So Far:"] header. *)
Lemma build_round_context_full_has_headers :
  build_round_context st_topic_only full_transcript <> topic st_topic_only.
Proof. vm_compute. discriminate. Qed.

(** C8, as amended. [full_transcript] renders the line
    ["Original Topic: {topic}"], a blank line, the header line, then for each
    entry in append order a blank line and its block; the output depends only
    on the topic and the transcript; [topic_only] returns the topic. *)
Theorem build_round_context_spec (st st' : DebateState) :
  topic st' = topic st -> debate_transcript st' = debate_transcript st ->
  build_round_context st full_transcript =
    String.append (String.append "Original Topic: " (topic st))
      (String.append nl (String.append nl
        (String.append "Full Debate Transcript So Far:"
          (rendered_blocks (debate_transcript st)))))
  /\ build_round_context st' full_transcript = build_round_context st full_transcript
  /\ build_round_context st topic_only = topic st.
Proof.
  intros Ht Htr. split; [|split; [|reflexivity]].
  - unfold build_round_context. cbn [app].
    rewrite 2!join_cons2, join_transcript_lines. reflexivity.
  - unfold build_round_context. now rewrite Ht, Htr.
Qed.

Definition st_two_entries : DebateState := {|
  topic := "Should X?"; agents := [mk_agent "a" "Ada"];
  debate_transcript :=
    [create_transcript_entry (AgentSpeaker (mk_agent "a" "Ada")) "Yes." 1;
     create_transcript_entry (NameSpeaker "Moderator") "Noted." 2];
  current_round := 3; round_agent_order := [mk_agent "a" "Ada"];
  current_agent_index := 1; status_context := None; last_speaker_id := Some "a" |}.

Definition st_two_entries' : DebateState := {|
  topic := "Should X?"; agents := [];
  debate_transcript := debate_transcript st_two_entries;
  current_round := 7; round_agent_order := []; current_agent_index := O;
  status_context := Some (SRoundStarting 7 "Closing" "parallel"); last_speaker_id := None |}.

Lemma build_round_context_spec_witness :
  build_round_context st_two_entries full_transcript =
    "Original Topic: Should X?

Full Debate Transcript So Far:

Ada (Round 1):
Yes.

Moderator (Round 2):
Noted."
  /\ build_round_context st_two_entries' full_transcript =
     build_round_context st_two_entries full_transcript
  /\ build_round_context st_two_entries topic_only = "Should X?".
Proof.
  destruct (build_round_context_spec st_two_entries st_two_entries' eq_refl eq_refl)
    as (H1 & H2 & H3).
  split; [rewrite H1; vm_compute; reflexivity|].
  split; [exact H2|exact H3].
Defined.

(** ** Loading a spec *)

(** C9, counterexample: an empty YAML document loads successfully, as a
    spec with no rounds. *)
Lemma load_debate_spec_may_be_empty :
  ~ (forall (y : Yaml) (s : DebateSpec),
       load_debate_spec_from_yaml y = Ok s -> rounds s <> []).
Proof.
  intros H. apply (H YNull {| rounds := [] |}); reflexivity.
Qed.

(** C9, as amended. A source without rounds (an empty or falsy document, a
    mapping without a [rounds] key, or an empty [rounds] mapping) loads as
    a spec with no rounds; running such a spec fails with [IndexError] at
    [self._ordered_rounds[0]], before any event. *)
Theorem load_without_rounds_fails_at_run (y : Yaml) :
  (yaml_truthy y = false
   \/ exists kvs, y = YMap kvs
                  /\ (ystr_lookup kvs "rounds" = None
                      \/ ystr_lookup kvs "rounds" = Some (YMap []))) ->
  load_debate_spec_from_yaml y = Ok {| rounds := [] |}
  /\ forall (o : Orchestrator) (recursion_limit : nat) (tpc : string),
       rounds (orch_spec o) = [] ->
       run_debate_with_limit o recursion_limit tpc = Aborted [] IndexError.
Proof.
  intros Hy. split.
  - unfold load_debate_spec_from_yaml.
    destruct Hy as [Hf|(kvs & -> & [Hn|Hn])].
    + rewrite Hf. reflexivity.
    + destruct (yaml_truthy (YMap kvs)); simpl; [rewrite Hn|]; reflexivity.
    + destruct (yaml_truthy (YMap kvs)) eqn:E; simpl; [rewrite Hn; reflexivity|].
      destruct kvs; [reflexivity|discriminate].
  - intros o n tpc Hr. unfold run_debate_with_limit, ordered_rounds. now rewrite Hr.
Qed.

Lemma load_without_rounds_fails_at_run_witness :
  load_debate_spec_from_yaml YNull = Ok {| rounds := [] |}
  /\ run_debate langgraph_up_to_1_0
       {| orch_agents := five_agents; orch_spec := {| rounds := [] |};
          orch_llm := echo_llm; orch_shuffle := keep_order |} "T"
     = Aborted [] IndexError.
Proof.
  destruct (load_without_rounds_fails_at_run YNull (or_introl eq_refl)) as [H1 H2].
  split; [exact H1|]. apply H2. reflexivity.
Defined.

(** ** Runs of the graph *)

(** *** Shapes of the executors' patches *)

Lemma lookup_round_is_round (o : Orchestrator) (r : Z) (cfg : RoundSpec) :
  lookup_round o r = Ok cfg -> dict_get (rounds (orch_spec o)) r = Some cfg.
Proof. unfold lookup_round. destruct (dict_get _ r); congruence. Qed.

Lemma parallel_shape (o : Orchestrator) (st : DebateState) (p : Patch) :
  execute_parallel_round o st = Ok p ->
  exists cfg results status,
    lookup_round o (current_round st) = Ok cfg
    /\ length results = length (orch_agents o)
    /\ p = {| p_debate_transcript :=
                Some (debate_transcript st
                      ++ map (fun '(a, response) =>
                                create_transcript_entry (AgentSpeaker a) response
                                  (current_round st))
                             (combine (orch_agents o) results));
              p_current_round := Some (next_round_number (orch_spec o) (current_round st));
              p_round_agent_order := None; p_current_agent_index := None;
              p_status_context := Some status; p_last_speaker_id := None |}.
Proof.
  unfold execute_parallel_round. intros H.
  destruct (lookup_round o (current_round st)) as [cfg|f]; simpl in H; [|discriminate].
  destruct (mapM _ (orch_agents o)) as [results|f] eqn:Em; simpl in H; [|discriminate].
  injection H as <-. eexists cfg, results, _. repeat split.
  now apply (mapM_length _ _ _ Em).
Qed.

Lemma turn_shape (o : Orchestrator) (st : DebateState) (p : Patch) :
  execute_sequential_turn o st = Ok p ->
  exists agent response status cfg,
    nth_error (round_agent_order st) (current_agent_index st) = Some agent
    /\ lookup_round o (current_round st) = Ok cfg
    /\ let t' := debate_transcript st
                 ++ [create_transcript_entry (AgentSpeaker agent) response
                       (current_round st)] in
       (((length (round_agent_order st) <= S (current_agent_index st))%nat
         /\ p = {| p_debate_transcript := Some t';
                   p_current_round := Some (next_round_number (orch_spec o)
                                                              (current_round st));
                   p_round_agent_order := Some []; p_current_agent_index := Some O;
                   p_status_context := Some status;
                   p_last_speaker_id := Some (Some (id agent)) |})
        \/ ((S (current_agent_index st) < length (round_agent_order st))%nat
            /\ p = {| p_debate_transcript := Some t'; p_current_round := None;
                      p_round_agent_order := None;
                      p_current_agent_index := Some (S (current_agent_index st));
                      p_status_context := Some status; p_last_speaker_id := None |})).
Proof.
  unfold execute_sequential_turn. intros H.
  destruct (nth_error (round_agent_order st) (current_agent_index st)) as [agent|] eqn:En;
    [|discriminate].
  destruct (title_for_round (orch_spec o) (current_round st)) as [rt|]; [|discriminate].
  destruct (lookup_round o (current_round st)) as [cfg|f] eqn:El; simpl in H; [|discriminate].
  destruct (invoke_agent o (Some agent) _ _) as [resp|f]; simpl in H; [|discriminate].
  exists agent, resp, (SAgentTurnStarting (current_round st) rt (name agent) (icon agent)), cfg.
  split; [reflexivity|split; [reflexivity|]].
  destruct (Nat.leb_spec (length (round_agent_order st)) (S (current_agent_index st)));
    injection H as <-; [left|right]; split; auto.
Qed.

Lemma moderator_shape (o : Orchestrator) (st : DebateState) (p : Patch) :
  execute_moderator_round o st = Ok p ->
  exists cfg response status,
    lookup_round o (current_round st) = Ok cfg
    /\ p = {| p_debate_transcript :=
                Some (debate_transcript st
                      ++ [create_transcript_entry (NameSpeaker "Moderator") response
                            (current_round st)]);
              p_current_round := Some (next_round_number (orch_spec o) (current_round st));
              p_round_agent_order := None; p_current_agent_index := None;
              p_status_context := Some status; p_last_speaker_id := None |}.
Proof.
  unfold execute_moderator_round. intros H.
  destruct (lookup_round o (current_round st)) as [cfg|f]; simpl in H; [|discriminate].
  destruct (invoke_agent o None _ _) as [resp|f]; simpl in H; [|discriminate].
  injection H as <-. eexists cfg, resp, _. split; reflexivity.
Qed.

(** *** Decomposing a super-step *)

Lemma step_next_inv (o : Orchestrator) (c c' : Config) :
  step o c = Next c' ->
  exists p evs,
    run_node o (cfg_node c) (cfg_state c) = Ok p
    /\ cfg_state c' = apply_patch p (cfg_state c)
    /\ next_target (cfg_node c) (apply_patch p (cfg_state c)) = Ok (ToNode (cfg_node c'))
    /\ observe p (cfg_last_status c) (cfg_last_index c)
       = (evs, cfg_last_status c', cfg_last_index c')
    /\ cfg_events c' = cfg_events c ++ evs.
Proof.
  unfold step. destruct (run_node o (cfg_node c) (cfg_state c)) as [p|f]; [|discriminate].
  destruct (observe p (cfg_last_status c) (cfg_last_index c)) as [[evs ls] li] eqn:Eo.
  destruct (next_target (cfg_node c) _) as [[n|]|f] eqn:Et; try discriminate.
  intros H. injection H as <-. exists p, evs. simpl. repeat split; auto.
Qed.

Lemma step_finish_inv (o : Orchestrator) (c c' : Config) :
  step o c = Finish c' ->
  exists p evs,
    run_node o (cfg_node c) (cfg_state c) = Ok p
    /\ cfg_state c' = apply_patch p (cfg_state c)
    /\ next_target (cfg_node c) (apply_patch p (cfg_state c)) = Ok ToEND
    /\ observe p (cfg_last_status c) (cfg_last_index c)
       = (evs, cfg_last_status c', cfg_last_index c')
    /\ cfg_events c' = cfg_events c ++ evs.
Proof.
  unfold step. destruct (run_node o (cfg_node c) (cfg_state c)) as [p|f]; [|discriminate].
  destruct (observe p (cfg_last_status c) (cfg_last_index c)) as [[evs ls] li] eqn:Eo.
  destruct (next_target (cfg_node c) _) as [[n|]|f] eqn:Et; try discriminate.
  intros H. injection H as <-. exists p, evs. simpl. repeat split; auto.
Qed.

(** *** Invariants of the run state *)

(** The turn index stays inside [round_agent_order], and an order is only
    set inside a sequential round. *)
Definition state_ok (o : Orchestrator) (st : DebateState) : Prop :=
  (round_agent_order st = [] -> current_agent_index st = O)
  /\ (round_agent_order st <> [] ->
      (current_agent_index st < length (round_agent_order st))%nat
      /\ type_for_round (orch_spec o) (current_round st) = Some sequential).

(** What the router established before handing over to a node. *)
Definition node_ok (o : Orchestrator) (n : Node) (st : DebateState) : Prop :=
  match n with
  | n_route_debate => True
  | n_execute_parallel_round => type_for_round (orch_spec o) (current_round st) = Some parallel
  | n_setup_sequential_round =>
      type_for_round (orch_spec o) (current_round st) = Some sequential
      /\ round_agent_order st = []
  | n_execute_sequential_turn =>
      type_for_round (orch_spec o) (current_round st) = Some sequential
      /\ round_agent_order st <> []
  | n_execute_moderator_round =>
      type_for_round (orch_spec o) (current_round st) = Some moderator
  end.

Lemma route_next_node (o : Orchestrator) (st : DebateState) (n : Node) :
  next_target n_route_debate (apply_patch (route_debate o st) st) = Ok (ToNode n) ->
  node_ok o n st.
Proof.
  unfold next_target, route_debate, status_patch, route_code. simpl.
  destruct (type_for_round (orch_spec o) (current_round st)) as [[]|] eqn:E;
    [| destruct (round_agent_order st) eqn:Eo | |]; simpl; intros H;
    inversion H; subst; simpl; auto; split; congruence.
Qed.

Lemma route_next_end (o : Orchestrator) (st : DebateState) :
  next_target n_route_debate (apply_patch (route_debate o st) st) = Ok ToEND ->
  type_for_round (orch_spec o) (current_round st) = None.
Proof.
  unfold next_target, route_debate, status_patch, route_code. simpl.
  destruct (type_for_round (orch_spec o) (current_round st)) as [[]|] eqn:E;
    [| destruct (round_agent_order st) eqn:Eo | |]; simpl; intros H;
    try discriminate; reflexivity.
Qed.

Lemma route_next_defined (o : Orchestrator) (st : DebateState) :
  exists t, next_target n_route_debate (apply_patch (route_debate o st) st) = Ok t.
Proof.
  unfold next_target, route_debate, status_patch, route_code. simpl.
  destruct (type_for_round (orch_spec o) (current_round st)) as [[]|];
    [| destruct (round_agent_order st) | |]; simpl; eexists; reflexivity.
Qed.

Lemma type_for_round_lookup (o : Orchestrator) (r : Z) (t : RoundType) :
  type_for_round (orch_spec o) r = Some t ->
  exists cfg, lookup_round o r = Ok cfg /\ round_type cfg = t
              /\ title_for_round (orch_spec o) r = Some (title cfg).
Proof.
  unfold type_for_round, lookup_round, title_for_round.
  destruct (dict_get _ r) as [cfg|]; intros H; [|discriminate].
  injection H as <-. now exists cfg.
Qed.

Lemma lookup_round_type (o : Orchestrator) (r : Z) (cfg : RoundSpec) :
  lookup_round o r = Ok cfg -> type_for_round (orch_spec o) r = Some (round_type cfg).
Proof. intros H. apply lookup_round_is_round in H. unfold type_for_round. now rewrite H. Qed.

Lemma type_sequential_not_other (o : Orchestrator) (r : Z) (t : RoundType) :
  type_for_round (orch_spec o) r = Some t -> t <> sequential ->
  type_for_round (orch_spec o) r <> Some sequential.
Proof. intros H Hne H'. rewrite H in H'. congruence. Qed.

(** Every super-step keeps [state_ok], and the next node finds what the
    router promised it. *)
Lemma step_preserves_ok (o : Orchestrator) (c c' : Config) :
  state_ok o (cfg_state c) -> node_ok o (cfg_node c) (cfg_state c) ->
  step o c = Next c' ->
  state_ok o (cfg_state c') /\ node_ok o (cfg_node c') (cfg_state c').
Proof.
  intros [Hs1 Hs2] Hn Hstep.
  destruct (step_next_inv _ _ _ Hstep) as (p & evs & Hrun & Hst & Ht & _ & _).
  rewrite Hst. clear Hstep Hst.
  destruct (cfg_node c) eqn:En; simpl in Hrun, Ht, Hn.
  - (* route_debate *)
    injection Hrun as <-. split; [split; assumption|].
    apply route_next_node in Ht. exact Ht.
  - (* parallel *)
    apply parallel_shape in Hrun as (cfg & results & status & _ & _ & ->).
    injection Ht as <-. simpl. split; [|exact I].
    assert (Ho : round_agent_order (cfg_state c) = []).
    { destruct (round_agent_order (cfg_state c)) eqn:E; [reflexivity|].
      destruct (Hs2 ltac:(discriminate)) as [_ Hseq]. congruence. }
    split; [auto|]. intros Hne. contradiction.
  - (* setup *)
    injection Hrun as <-. injection Ht as <-.
    unfold setup_sequential_round, apply_patch. simpl. split; [|exact I].
    destruct Hn as [Hseq Ho]. specialize (Hs1 Ho).
    split; [|intros Hne; split; [|exact Hseq]].
    + intros _. exact Hs1.
    + rewrite Hs1. destruct (get_randomized_agents _ _ _); simpl; [contradiction|lia].
  - (* sequential turn *)
    apply turn_shape in Hrun
      as (agent & resp & status & cfg & Hnth & Hl & [(Hle & ->)|(Hlt & ->)]);
      injection Ht as <-; simpl; (split; [|exact I]).
    + split; [reflexivity|]. intros Hne. contradiction.
    + destruct Hn as [Hseq Hne]. split; [intros Ho; contradiction|].
      intros _. split; [exact Hlt|exact Hseq].
  - (* moderator *)
    apply moderator_shape in Hrun as (cfg & resp & status & _ & ->).
    injection Ht as <-. simpl. split; [|exact I].
    assert (Ho : round_agent_order (cfg_state c) = []).
    { destruct (round_agent_order (cfg_state c)) eqn:E; [reflexivity|].
      destruct (Hs2 ltac:(discriminate)) as [_ Hseq]. congruence. }
    split; [auto|]. intros Hne. contradiction.
Qed.

(** *** Runs whose completion failures are all caught *)

Definition llm_failures_caught (o : Orchestrator) : Prop :=
  forall msgs e, orch_llm o msgs = inr e -> caught_by_invoke (exc_class e) = true.

Lemma invoke_agent_total (o : Orchestrator) (agent : option Agent) (tpl content : string) :
  llm_failures_caught o -> exists s, invoke_agent o agent tpl content = Ok s.
Proof.
  intros Hc. unfold invoke_agent.
  destruct (orch_llm o _) as [text|e] eqn:E; [now eexists|].
  rewrite (Hc _ _ E). now eexists.
Qed.

Lemma mapM_total {A B} (f : A -> Result B) (l : list A) :
  (forall x, exists y, f x = Ok y) -> exists ys, mapM f l = Ok ys.
Proof.
  intros Hf. induction l as [|x xs IH]; simpl; [now eexists|].
  destruct (Hf x) as [y Hy]. rewrite Hy. destruct IH as [ys Hys]. simpl.
  rewrite Hys. now eexists.
Qed.

Lemma run_node_total (o : Orchestrator) (n : Node) (st : DebateState) :
  llm_failures_caught o -> state_ok o st -> node_ok o n st ->
  exists p, run_node o n st = Ok p.
Proof.
  intros Hc [Hs1 Hs2] Hn. destruct n; simpl in *.
  - now eexists.
  - destruct (type_for_round_lookup _ _ _ Hn) as (cfg & Hl & _).
    unfold execute_parallel_round. rewrite Hl. simpl.
    destruct (mapM_total (fun a => invoke_agent o (Some a) (prompt_template cfg)
                 (build_round_context st (context_strategy cfg))) (orch_agents o))
      as [ys Hys]; [intros a; apply invoke_agent_total, Hc|].
    rewrite Hys. now eexists.
  - now eexists.
  - destruct Hn as [Hseq Hne].
    destruct (Hs2 Hne) as [Hlt _].
    destruct (nth_error (round_agent_order st) (current_agent_index st)) as [agent|] eqn:En;
      [|apply nth_error_None in En; lia].
    destruct (type_for_round_lookup _ _ _ Hseq) as (cfg & Hl & _ & Ht).
    unfold execute_sequential_turn. rewrite En, Ht, Hl. simpl.
    destruct (invoke_agent_total o (Some agent) (prompt_template cfg)
                (build_round_context st (context_strategy cfg)) Hc) as [s Hs].
    rewrite Hs. simpl.
    destruct (Nat.leb _ _); now eexists.
  - destruct (type_for_round_lookup _ _ _ Hn) as (cfg & Hl & _).
    unfold execute_moderator_round. rewrite Hl. simpl.
    destruct (invoke_agent_total o None (prompt_template cfg)
                (build_round_context st (context_strategy cfg)) Hc) as [s Hs].
    rewrite Hs. now eexists.
Qed.

Lemma next_target_total (o : Orchestrator) (n : Node) (st : DebateState) (p : Patch) :
  run_node o n st = Ok p -> exists t, next_target n (apply_patch p st) = Ok t.
Proof.
  intros H. destruct n; simpl in *; try (now eexists).
  injection H as <-. apply route_next_defined.
Qed.

Lemma step_no_fault (o : Orchestrator) (c : Config) (evs : list Event) (f : Fault) :
  llm_failures_caught o -> state_ok o (cfg_state c) -> node_ok o (cfg_node c) (cfg_state c) ->
  step o c <> Stop evs f.
Proof.
  intros Hc Hs Hn. destruct (run_node_total o _ _ Hc Hs Hn) as [p Hp].
  destruct (next_target_total _ _ _ _ Hp) as [t Ht].
  unfold step. rewrite Hp.
  destruct (observe p (cfg_last_status c) (cfg_last_index c)) as [[evs' ls] li].
  rewrite Ht. destruct t; discriminate.
Qed.

Lemma drive_no_fault (o : Orchestrator) (budget : nat) (c : Config) (evs : list Event) (f : Fault) :
  llm_failures_caught o -> state_ok o (cfg_state c) -> node_ok o (cfg_node c) (cfg_state c) ->
  drive o budget c = Aborted evs f -> f = GraphRecursionError.
Proof.
  revert c. induction budget as [|b IH]; intros c Hc Hs Hn H; simpl in H.
  - congruence.
  - destruct (step o c) as [c'|c'|evs' f'] eqn:E.
    + destruct (step_preserves_ok o c c' Hs Hn E) as [Hs' Hn'].
      exact (IH c' Hc Hs' Hn' H).
    + destruct b; [congruence|discriminate].
    + exfalso. exact (step_no_fault o c evs' f' Hc Hs Hn E).
Qed.

Lemma initial_state_ok (o : Orchestrator) (tpc : string) (r0 : Z) :
  state_ok o (initial_state o tpc r0).
Proof. split; simpl; [reflexivity|contradiction]. Qed.

(** *** Completion failures *)

Definition timeout_error : PyExc := {| exc_class := TimeoutError; exc_str := "Request timed out" |}.

(** A collaborator that times out for the participant whose persona is
    ["persona A"]. *)
Definition llm_timeout_for_A : LLM := fun msgs =>
  match msgs with
  | SystemMessage s :: _ => if String.eqb s "persona A" then inr timeout_error else inl "ok"
  | _ => inl "ok"
  end.

Definition orch_timeout : Orchestrator := {|
  orch_agents := [mk_agent "a" "A"; mk_agent "b" "B"];
  orch_spec := {| rounds := [(1, mk_round "Opening Statements" parallel topic_only)] |};
  orch_llm := llm_timeout_for_A; orch_shuffle := keep_order |}.

(** C7, counterexample: a completion call that times out raises
    [TimeoutError], which [_invoke_agent] does not catch; [gather]
    propagates it and the run ends without [debate_complete], under
    either release's default recursion limit. *)
Lemma timeout_aborts_run :
  run_debate langgraph_up_to_1_0 orch_timeout "T"
  = Aborted [status_update (SCode "OPENING_STATEMENTS")] (Raised timeout_error)
  /\ run_debate langgraph_from_1_1 orch_timeout "T"
  = Aborted [status_update (SCode "OPENING_STATEMENTS")] (Raised timeout_error).
Proof. split; vm_compute; reflexivity. Qed.

Lemma mapM_Forall2 {A B} (f : A -> Result B) (l : list A) (ys : list B) :
  mapM f l = Ok ys -> Forall2 (fun x y => f x = Ok y) l ys.
Proof.
  revert ys. induction l as [|x xs IH]; intros ys H; simpl in H.
  - injection H as <-. constructor.
  - destruct (f x) as [y|e] eqn:E; [|discriminate]. simpl in H.
    destruct (mapM f xs) as [ys'|e] eqn:E'; [|discriminate]. simpl in H.
    injection H as <-. constructor; [exact E|]. apply IH; reflexivity.
Qed.

Definition value_error : PyExc := {| exc_class := ValueError; exc_str := "bad response" |}.

Definition llm_value_error_for_A : LLM := fun msgs =>
  match msgs with
  | SystemMessage s :: _ => if String.eqb s "persona A" then inr value_error else inl "ok"
  | _ => inl "ok"
  end.

Definition orch_value_error : Orchestrator := {|
  orch_agents := [mk_agent "a" "A"; mk_agent "b" "B"];
  orch_spec := {| rounds := [(1, mk_round "Opening Statements" parallel topic_only)] |};
  orch_llm := llm_value_error_for_A; orch_shuffle := keep_order |}.

Lemma orch_value_error_caught : llm_failures_caught orch_value_error.
Proof.
  intros msgs e H. simpl in H. unfold llm_value_error_for_A in H.
  destruct msgs as [|[s|s] rest]; try discriminate.
  destruct (String.eqb s "persona A"); [|discriminate].
  injection H as <-. reflexivity.
Qed.

(** The configuration the driver reaches after [k] super-steps that each
    hand over to a node. *)
Fixpoint steps_from (o : Orchestrator) (k : nat) (c : Config) : option Config :=
  match k with
  | O => Some c
  | S k' =>
      match step o c with
      | Next c' => steps_from o k' c'
      | _ => None
      end
  end.

Lemma observe_no_complete (p : Patch) (ls ls' : option StatusContext) (li li' : nat)
    (evs : list Event) :
  observe p ls li = (evs, ls', li') -> ~ In debate_complete evs.
Proof.
  unfold observe. intros H.
  assert (Hmap : forall l, ~ In debate_complete (map agent_response l)).
  { intros l Hin. apply in_map_iff in Hin as (x & Hx & _). discriminate. }
  destruct (p_status_context p) as [s|];
    [destruct ls as [l|]; [destruct (StatusContext_eq_dec s l)|]|];
    destruct (Nat.ltb _ _); injection H as <- _ _; intros Hin;
    repeat match goal with
           | H : In _ (_ ++ _) |- _ => apply in_app_or in H as [H|H]
           | H : In _ (map agent_response _) |- _ => exact (Hmap _ H)
           | H : In _ [] |- _ => destruct H
           | H : In _ [_] |- _ => destruct H as [H|[]]; discriminate
           | H : In _ (_ :: _) |- _ => destruct H as [H|H]; [discriminate|]
           end.
Qed.

Lemma steps_from_no_complete (o : Orchestrator) (k : nat) (c c' : Config) :
  steps_from o k c = Some c' -> ~ In debate_complete (cfg_events c) ->
  ~ In debate_complete (cfg_events c').
Proof.
  revert c. induction k as [|k IH]; intros c H Hc; simpl in H.
  - injection H as <-. exact Hc.
  - destruct (step o c) as [c1|c1|evs f] eqn:E; try discriminate.
    apply (IH c1 H).
    destruct (step_next_inv _ _ _ E) as (p & evs & _ & _ & _ & Hobs & ->).
    intros Hin. apply in_app_or in Hin as [Hin|Hin]; [contradiction|].
    exact (observe_no_complete _ _ _ _ _ _ Hobs Hin).
Qed.

(** A node that fails aborts the run there, with the events yielded so
    far. *)
Lemma drive_node_error (o : Orchestrator) (k budget : nat) (c c' : Config) (f : Fault) :
  steps_from o k c = Some c' -> (k < budget)%nat ->
  run_node o (cfg_node c') (cfg_state c') = Err f ->
  drive o budget c = Aborted (cfg_events c') f.
Proof.
  revert c budget. induction k as [|k IH]; intros c budget H Hk Hrun;
    (destruct budget as [|b]; [lia|]); simpl in H |- *.
  - injection H as <-. unfold step. rewrite Hrun. reflexivity.
  - destruct (step o c) as [c1|c1|evs f'] eqn:E; try discriminate.
    apply (IH c1 b H); [lia|exact Hrun].
Qed.

Lemma mapM_first_error {A B} (f : A -> Result B) (l : list A) (x : A) (e : Fault) :
  In x l -> f x = Err e ->
  exists x' e', In x' l /\ f x' = Err e' /\ mapM f l = Err e'.
Proof.
  induction l as [|x0 xs IH]; intros Hin Hx; [destruct Hin|].
  simpl. destruct (f x0) as [y|e0] eqn:E0.
  - destruct Hin as [<-|Hin]; [congruence|].
    destruct (IH Hin Hx) as (x' & e' & Hin' & Hx' & Hm).
    exists x', e'. split; [now right|]. split; [exact Hx'|]. simpl. now rewrite Hm.
  - exists x0, e0. split; [now left|]. split; [exact E0|reflexivity].
Qed.

Lemma invoke_agent_uncaught (o : Orchestrator) (agent : option Agent) (tpl content : string)
    (e : PyExc) :
  orch_llm o (invoke_messages agent tpl content) = inr e ->
  caught_by_invoke (exc_class e) = false ->
  invoke_agent o agent tpl content = Err (Raised e).
Proof. intros H Hc. unfold invoke_agent. now rewrite H, Hc. Qed.

Lemma lookup_round_title (o : Orchestrator) (r : Z) (cfg : RoundSpec) :
  lookup_round o r = Ok cfg -> title_for_round (orch_spec o) r = Some (title cfg).
Proof.
  unfold lookup_round, title_for_round. destruct (dict_get _ r); congruence.
Qed.

(** C7 (amended): a failed completion call is replaced by the fallback text
    ["Error generating response for {name}: {message}"] exactly when the
    exception is a [ValueError], [RuntimeError] or [ConnectionError]; any
    other exception (a [TimeoutError], say) propagates out of
    [_invoke_agent].  When every failure of the collaborator is of a caught
    class, a broadcast round yields one entry per participant, in order,
    each carrying the response or the fallback text, and a run can only be
    aborted by the recursion limit (or by a spec without rounds).  An
    uncaught exception of a call in a round propagates out of the round's
    node ([gather] propagates one of the exceptions its calls raised), and
    a node that raises, wherever the run reaches it, aborts the run there
    with that exception, before any [debate_complete]. *)
Theorem invoke_agent_failure_handling (o : Orchestrator) :
  (forall agent tpl content e,
     orch_llm o (invoke_messages agent tpl content) = inr e ->
     invoke_agent o agent tpl content =
       if caught_by_invoke (exc_class e) then
         Ok (fallback_text (match agent with None => "Moderator" | Some a => name a end)
                           (exc_str e))
       else Err (Raised e))
  /\ (llm_failures_caught o ->
      (forall st cfg, lookup_round o (current_round st) = Ok cfg ->
         exists results p,
           Forall2 (fun a s => invoke_agent o (Some a) (prompt_template cfg)
                                 (build_round_context st (context_strategy cfg)) = Ok s)
                   (orch_agents o) results
           /\ execute_parallel_round o st = Ok p
           /\ p_debate_transcript p =
                Some (debate_transcript st
                      ++ map (fun '(a, response) =>
                                create_transcript_entry (AgentSpeaker a) response
                                                        (current_round st))
                             (combine (orch_agents o) results)))
      /\ (forall budget tpc evs f,
            run_debate_with_limit o budget tpc = Aborted evs f ->
            f = GraphRecursionError \/ (f = IndexError /\ ordered_rounds (orch_spec o) = [])))
  /\ (forall st cfg e,
        lookup_round o (current_round st) = Ok cfg ->
        caught_by_invoke (exc_class e) = false ->
        let content := build_round_context st (context_strategy cfg) in
        ((exists a, In a (orch_agents o)
                    /\ orch_llm o (invoke_messages (Some a) (prompt_template cfg) content)
                       = inr e) ->
         exists a' e', In a' (orch_agents o)
                       /\ orch_llm o (invoke_messages (Some a') (prompt_template cfg) content)
                          = inr e'
                       /\ caught_by_invoke (exc_class e') = false
                       /\ execute_parallel_round o st = Err (Raised e'))
        /\ (forall agent,
              nth_error (round_agent_order st) (current_agent_index st) = Some agent ->
              orch_llm o (invoke_messages (Some agent) (prompt_template cfg) content) = inr e ->
              execute_sequential_turn o st = Err (Raised e))
        /\ (orch_llm o (invoke_messages None (prompt_template cfg) content) = inr e ->
            execute_moderator_round o st = Err (Raised e)))
  /\ (forall budget tpc r0 rest k c e,
        ordered_rounds (orch_spec o) = r0 :: rest ->
        steps_from o k (initial_config o tpc r0) = Some c -> (k < budget)%nat ->
        run_node o (cfg_node c) (cfg_state c) = Err (Raised e) ->
        run_debate_with_limit o budget tpc = Aborted (cfg_events c) (Raised e)
        /\ ~ In debate_complete (cfg_events c)).
Proof.
  split; [|split; [intros Hc; split|split]].
  - intros agent tpl content e H. unfold invoke_agent. rewrite H. reflexivity.
  - intros st cfg Hl.
    set (content := build_round_context st (context_strategy cfg)).
    destruct (mapM_total (fun a => invoke_agent o (Some a) (prompt_template cfg) content)
                (orch_agents o)) as [ys Hys]; [intros a; apply invoke_agent_total, Hc|].
    exists ys. unfold execute_parallel_round. rewrite Hl. simpl. fold content. rewrite Hys.
    simpl. eexists. split; [apply mapM_Forall2, Hys|]. split; reflexivity.
  - intros budget tpc evs f H. unfold run_debate_with_limit in H.
    destruct (ordered_rounds (orch_spec o)) as [|r0 rest] eqn:E.
    + injection H as _ <-. right. split; reflexivity.
    + left. apply (drive_no_fault o budget (initial_config o tpc r0) evs f Hc);
        [apply initial_state_ok | simpl; exact I | exact H].
  - intros st cfg e Hl Hu content. split; [|split].
    + intros (a & Hin & He).
      destruct (mapM_first_error
                  (fun a => invoke_agent o (Some a) (prompt_template cfg) content)
                  (orch_agents o) a (Raised e) Hin (invoke_agent_uncaught _ _ _ _ _ He Hu))
        as (a' & f' & Hin' & Hf' & Hm).
      unfold invoke_agent in Hf'.
      destruct (orch_llm o (invoke_messages (Some a') (prompt_template cfg) content))
        as [text|e'] eqn:E'; [discriminate|].
      destruct (caught_by_invoke (exc_class e')) eqn:Ec; [discriminate|].
      injection Hf' as <-. exists a', e'. split; [exact Hin'|]. split; [exact E'|].
      split; [exact Ec|]. unfold execute_parallel_round. rewrite Hl. simpl.
      fold content. rewrite Hm. reflexivity.
    + intros agent Hnth He. unfold execute_sequential_turn.
      rewrite Hnth, (lookup_round_title _ _ _ Hl), Hl. simpl. fold content.
      rewrite (invoke_agent_uncaught _ _ _ _ _ He Hu). reflexivity.
    + intros He. unfold execute_moderator_round. rewrite Hl. simpl. fold content.
      rewrite (invoke_agent_uncaught _ _ _ _ _ He Hu). reflexivity.
  - intros budget tpc r0 rest k c e Eor Hk Hlt Hrun. unfold run_debate_with_limit.
    rewrite Eor. split; [exact (drive_node_error o k budget _ c _ Hk Hlt Hrun)|].
    apply (steps_from_no_complete o k _ c Hk). intros [].
Qed.

Lemma invoke_agent_failure_handling_witness :
  llm_failures_caught orch_value_error
  /\ (forall budget tpc evs f,
        run_debate_with_limit orch_value_error budget tpc = Aborted evs f ->
        f = GraphRecursionError \/ (f = IndexError /\ ordered_rounds (orch_spec orch_value_error) = []))
  /\ invoke_agent orch_value_error (Some (mk_agent "a" "A")) "p" "T"
     = Ok (fallback_text "A" "bad response")
  /\ (exists a' e', In a' (orch_agents orch_timeout)
                    /\ caught_by_invoke (exc_class e') = false
                    /\ execute_parallel_round orch_timeout (initial_state orch_timeout "T" 1)
                       = Err (Raised e'))
  /\ run_debate_with_limit orch_timeout 2 "T"
     = Aborted [status_update (SCode "OPENING_STATEMENTS")] (Raised timeout_error).
Proof.
  split; [exact orch_value_error_caught|]. split.
  - exact (proj2 (proj1 (proj2 (invoke_agent_failure_handling orch_value_error))
                        orch_value_error_caught)).
  - split; [exact (proj1 (invoke_agent_failure_handling orch_value_error)
                     (Some (mk_agent "a" "A")) "p" "T" value_error eq_refl)|].
    split.
    + destruct (proj1 (proj1 (proj2 (proj2 (invoke_agent_failure_handling orch_timeout)))
                  (initial_state orch_timeout "T" 1)
                  (mk_round "Opening Statements" parallel topic_only) timeout_error
                  eq_refl eq_refl)
                (ex_intro _ (mk_agent "a" "A") (conj (or_introl eq_refl) eq_refl)))
        as (a' & e' & Hin & _ & Hu & Hp).
      exists a', e'. split; [exact Hin|]. split; [exact Hu|exact Hp].
    + set (c := match steps_from orch_timeout 1 (initial_config orch_timeout "T" 1) with
                | Some c => c | None => initial_config orch_timeout "T" 1 end).
      change [status_update (SCode "OPENING_STATEMENTS")] with (cfg_events c).
      apply (proj2 (proj2 (proj2 (invoke_agent_failure_handling orch_timeout)))
               2%nat "T" 1 [] 1%nat c timeout_error);
        [vm_compute; reflexivity|vm_compute; reflexivity|lia|vm_compute; reflexivity].
Defined.

(** *** The step budget of a run *)

(** Twenty-five participants on the four-round spec. *)
Definition twenty_five_agents : list Agent :=
  map (fun k => let t := z_to_string (Z.of_nat k) in mk_agent t (String.append "P" t))
      (seq 1 25).

Definition orch25 : Orchestrator := {|
  orch_agents := twenty_five_agents; orch_spec := four_round_spec;
  orch_llm := echo_llm; orch_shuffle := keep_order |}.

(** C2 (code_bug): LangGraph's recursion limit counts every superstep (each
    node run, not only the Route transitions), and [run_debate] passes no
    [config], so the limit in force is the release's default, never the
    computed one. The four-round spec with five participants runs 29
    supersteps and has a computed limit of 38: a limit of 30 lets it
    complete, 29 does not, and up to LangGraph 1.0 (default 25) [run_debate]
    aborts it with [GraphRecursionError]. With twenty-five participants the
    run takes 109 supersteps and the computed limit is 100, under which it
    would abort; from LangGraph 1.1 (default 10000) [run_debate] completes
    it. *)
Theorem run_debate_default_limit_aborts :
  total_steps four_round_spec 5 = 29
  /\ calculate_recursion_limit four_round_spec 5 = 38
  /\ (exists evs, run_debate_with_limit orch5 30 "T" = Completed evs)
  /\ (exists evs, run_debate_with_limit orch5 29 "T" = Aborted evs GraphRecursionError)
  /\ (exists evs, run_debate langgraph_up_to_1_0 orch5 "T" = Aborted evs GraphRecursionError)
  /\ total_steps four_round_spec 25 = 109
  /\ calculate_recursion_limit four_round_spec 25 = 100
  /\ (exists evs, run_debate_with_limit orch25 100 "T" = Aborted evs GraphRecursionError)
  /\ (exists evs, run_debate langgraph_from_1_1 orch25 "T" = Completed evs).
Proof.
  split; [reflexivity|]. split; [reflexivity|].
  split; [eexists; vm_compute; reflexivity|].
  split; [eexists; vm_compute; reflexivity|].
  split; [eexists; vm_compute; reflexivity|].
  split; [vm_compute; reflexivity|]. split; [vm_compute; reflexivity|].
  split; eexists; vm_compute; reflexivity.
Qed.

(** *** What a completed run emits *)

(** The transcript entries carried by the [agent_response] events of a
    stream, in order. *)
Definition responses (evs : list Event) : list TranscriptEntry :=
  flat_map (fun ev => match ev with agent_response e => [e] | _ => [] end) evs.

(** The speakers of the entries of round [r]. *)
Definition names_in (t : list TranscriptEntry) (r : Z) : list string :=
  map entry_agent (filter (fun e => Z.eqb (entry_round e) r) t).

(** The speakers a round of the spec should have: every participant, or the
    moderator alone in a moderator round. *)
Definition expected_names (o : Orchestrator) (r : Z) : list string :=
  match type_for_round (orch_spec o) r with
  | Some moderator => ["Moderator"]
  | _ => map name (orch_agents o)
  end.

(** The transcript so far: every entry belongs to a round of the spec not
    after the current one; each earlier round is complete; the current
    round holds the turns taken so far; the current round is a round of
    the spec, or past all of them; a turn order is a permutation of the
    participants. *)
Definition trans_ok (o : Orchestrator) (st : DebateState) : Prop :=
  (forall e, In e (debate_transcript st) ->
     is_round (orch_spec o) (entry_round e) /\ entry_round e <= current_round st)
  /\ (forall k, is_round (orch_spec o) k -> k < current_round st ->
        Permutation (names_in (debate_transcript st) k) (expected_names o k))
  /\ names_in (debate_transcript st) (current_round st)
     = map name (firstn (current_agent_index st) (round_agent_order st))
  /\ (is_round (orch_spec o) (current_round st)
      \/ forall k, is_round (orch_spec o) k -> k < current_round st)
  /\ (round_agent_order st <> [] -> Permutation (round_agent_order st) (orch_agents o)).

Lemma responses_app (l1 l2 : list Event) :
  responses (l1 ++ l2) = responses l1 ++ responses l2.
Proof. unfold responses. apply flat_map_app. Qed.

Lemma responses_map (t : list TranscriptEntry) : responses (map agent_response t) = t.
Proof. induction t as [|e t IH]; simpl; [reflexivity|]. now rewrite IH. Qed.

Lemma names_in_app (t1 t2 : list TranscriptEntry) (r : Z) :
  names_in (t1 ++ t2) r = names_in t1 r ++ names_in t2 r.
Proof. unfold names_in. now rewrite filter_app, map_app. Qed.

Lemma is_round_type (s : DebateSpec) (k : Z) :
  is_round s k <-> type_for_round s k <> None.
Proof.
  unfold is_round, type_for_round. destruct (dict_get (rounds s) k); split; congruence.
Qed.

Lemma firstn_S_nth {A} (l : list A) (n : nat) (x : A) :
  nth_error l n = Some x -> firstn (S n) l = firstn n l ++ [x].
Proof.
  revert n. induction l as [|y l IH]; intros n H; [destruct n; discriminate|].
  destruct n as [|n]; simpl in H |- *.
  - injection H as ->. reflexivity.
  - specialize (IH n H). simpl in IH. rewrite IH. reflexivity.
Qed.

Lemma get_randomized_agents_perm (l : list Agent) (sh : list Agent -> list Agent)
    (x : option string) :
  Permutation (sh l) l -> Permutation (get_randomized_agents l sh x) l.
Proof.
  intros Hp. destruct l as [|a l]; simpl; [constructor|].
  destruct (sh (a :: l)) as [|f rest] eqn:E; [exact Hp|].
  destruct (_ && _ && _); [|exact Hp].
  eapply Permutation_trans; [|exact Hp]. apply Permutation_sym, Permutation_cons_append.
Qed.

(** The entries a broadcast round appends, all of round [r]. *)
Lemma broadcast_names (l : list Agent) (results : list string) (r k : Z) :
  length results = length l ->
  names_in (map (fun '(a, response) => create_transcript_entry (AgentSpeaker a) response r)
                (combine l results)) k
  = if Z.eqb r k then map name l else [].
Proof.
  revert results. induction l as [|a l IH]; intros [|s results] Hlen; simpl in *;
    try discriminate; [now destruct (Z.eqb r k)|].
  injection Hlen as Hlen. specialize (IH results Hlen). unfold names_in in *.
  simpl in IH |- *. destruct (Z.eqb r k); simpl; rewrite IH; reflexivity.
Qed.

Lemma broadcast_rounds (l : list Agent) (results : list string) (r : Z) (e : TranscriptEntry) :
  In e (map (fun '(a, response) => create_transcript_entry (AgentSpeaker a) response r)
            (combine l results)) -> entry_round e = r.
Proof.
  intros Hin. apply in_map_iff in Hin as ([a s] & <- & _). reflexivity.
Qed.

Lemma names_in_other (t : list TranscriptEntry) (k : Z) :
  (forall e, In e t -> entry_round e <> k) -> names_in t k = [].
Proof.
  unfold names_in. induction t as [|e t IH]; intros H; simpl; [reflexivity|].
  destruct (Z.eqb_spec (entry_round e) k) as [E|_].
  - exfalso. exact (H e (or_introl eq_refl) E).
  - apply IH. intros e' He'. apply H. now right.
Qed.

Lemma keys_below_next (s : DebateSpec) (r k : Z) :
  is_round s k -> k < next_round_number s r -> k <= r.
Proof.
  intros Hk Hlt. destruct (next_round_number_spec s r) as [(_ & _ & Hmin)|(Hall & _)].
  - destruct (Z.le_gt_cases k r) as [|Hgt]; [assumption|].
    specialize (Hmin k Hk Hgt). lia.
  - now apply Hall.
Qed.

Lemma next_round_position (s : DebateSpec) (r : Z) :
  is_round s (next_round_number s r)
  \/ forall k, is_round s k -> k < next_round_number s r.
Proof.
  destruct (next_round_number_spec s r) as [(H & _)|(Hall & ->)]; [now left|].
  right. intros k Hk. specialize (Hall k Hk). lia.
Qed.

(** A node that ends round [r] with entries [u] of that round moves the run
    to the next round of the spec. *)
Lemma trans_advance (o : Orchestrator) (st st' : DebateState) (u : list TranscriptEntry) :
  trans_ok o st -> is_round (orch_spec o) (current_round st) ->
  (forall e, In e u -> entry_round e = current_round st) ->
  Permutation (names_in (debate_transcript st ++ u) (current_round st))
              (expected_names o (current_round st)) ->
  debate_transcript st' = debate_transcript st ++ u ->
  current_round st' = next_round_number (orch_spec o) (current_round st) ->
  round_agent_order st' = [] ->
  trans_ok o st'.
Proof.
  intros (H1 & H2 & H3 & H4 & H5) Hr Hu Hperm ET ER EO.
  pose proof (next_round_number_gt (orch_spec o) (current_round st)) as Hgt.
  unfold trans_ok. rewrite ET, ER, EO. split; [|split; [|split; [|split]]].
  - intros e Hin. apply in_app_or in Hin as [Hin|Hin].
    + destruct (H1 e Hin). split; [assumption|lia].
    + rewrite (Hu e Hin). split; [assumption|lia].
  - intros k Hk Hlt. pose proof (keys_below_next _ _ _ Hk Hlt) as Hle.
    destruct (Z.eq_dec k (current_round st)) as [->|Hne]; [exact Hperm|].
    rewrite names_in_app, (names_in_other u k), app_nil_r; [apply H2; [assumption|lia]|].
    intros e He. rewrite (Hu e He). congruence.
  - rewrite firstn_nil. apply names_in_other. intros e Hin.
    apply in_app_or in Hin as [Hin|Hin].
    + destruct (H1 e Hin). lia.
    + rewrite (Hu e Hin). lia.
  - apply next_round_position.
  - intros H. contradiction.
Qed.

Lemma order_empty_outside_sequential (o : Orchestrator) (st : DebateState) (t : RoundType) :
  state_ok o st -> type_for_round (orch_spec o) (current_round st) = Some t ->
  t <> sequential -> round_agent_order st = [] /\ current_agent_index st = O.
Proof.
  intros [Hs1 Hs2] Ht Hne.
  destruct (round_agent_order st) eqn:E; [split; [reflexivity|now apply Hs1]|].
  destruct (Hs2 ltac:(discriminate)) as [_ Hseq]. congruence.
Qed.

Lemma is_round_of_type (o : Orchestrator) (r : Z) (t : RoundType) :
  type_for_round (orch_spec o) r = Some t -> is_round (orch_spec o) r.
Proof. intros H. apply is_round_type. congruence. Qed.

Lemma run_node_trans (o : Orchestrator) (n : Node) (st : DebateState) (p : Patch) :
  (forall r l, Permutation (orch_shuffle o r l) l) ->
  state_ok o st -> node_ok o n st -> trans_ok o st -> run_node o n st = Ok p ->
  trans_ok o (apply_patch p st).
Proof.
  intros Hsh Hs Hn Ht Hrun. destruct n; simpl in Hn, Hrun.
  - (* route_debate: only the status changes *)
    injection Hrun as <-. exact Ht.
  - (* parallel *)
    apply parallel_shape in Hrun as (cfg & results & status & _ & Hlen & ->).
    destruct (order_empty_outside_sequential o st parallel Hs Hn ltac:(discriminate))
      as [Ho Hi].
    destruct Ht as (H1 & H2 & H3 & H4 & H5).
    apply (trans_advance o st _
             (map (fun '(a, response) =>
                     create_transcript_entry (AgentSpeaker a) response (current_round st))
                  (combine (orch_agents o) results))
             (conj H1 (conj H2 (conj H3 (conj H4 H5)))));
      try reflexivity.
    + exact (is_round_of_type _ _ _ Hn).
    + apply broadcast_rounds.
    + rewrite names_in_app, H3, Ho, firstn_nil, broadcast_names, Z.eqb_refl by exact Hlen.
      unfold expected_names. rewrite Hn. reflexivity.
    + exact Ho.
  - (* setup *)
    injection Hrun as <-. destruct Hn as [Hseq Ho].
    destruct Hs as [Hs1 _]. specialize (Hs1 Ho).
    destruct Ht as (H1 & H2 & H3 & H4 & H5).
    unfold trans_ok, setup_sequential_round, apply_patch. simpl.
    split; [exact H1|]. split; [exact H2|]. split; [|split; [exact H4|]].
    + rewrite H3, Ho, Hs1. reflexivity.
    + intros _. apply get_randomized_agents_perm, Hsh.
  - (* sequential turn *)
    destruct Hn as [Hseq Hne]. destruct Hs as [_ Hs2]. destruct (Hs2 Hne) as [Hlt _].
    apply turn_shape in Hrun
      as (agent & resp & status & cfg & Hnth & _ & [(Hle & ->)|(Hlt' & ->)]).
    + (* the last turn of the round *)
      destruct Ht as (H1 & H2 & H3 & H4 & H5).
      apply (trans_advance o st _ [create_transcript_entry (AgentSpeaker agent) resp
                                     (current_round st)]
               (conj H1 (conj H2 (conj H3 (conj H4 H5)))));
        try reflexivity.
      * exact (is_round_of_type _ _ _ Hseq).
      * intros e [<-|[]]. reflexivity.
      * rewrite names_in_app, H3. unfold names_in. simpl. rewrite Z.eqb_refl. simpl.
        change [name agent] with (map name [agent]).
        rewrite <- map_app, <- (firstn_S_nth _ _ _ Hnth), firstn_all2 by lia.
        unfold expected_names. rewrite Hseq. apply Permutation_map, H5, Hne.
    + (* a turn inside the round *)
      destruct Ht as (H1 & H2 & H3 & H4 & H5).
      unfold trans_ok, apply_patch. simpl.
      split; [|split; [|split; [|split; [exact H4|exact H5]]]].
      * intros e Hin. apply in_app_or in Hin as [Hin|[<-|[]]]; [now apply H1|].
        simpl. split; [exact (is_round_of_type _ _ _ Hseq)|lia].
      * intros k Hk Hk'. rewrite names_in_app, (names_in_other [_] k), app_nil_r;
          [now apply H2|].
        intros e [<-|[]]. simpl. lia.
      * rewrite names_in_app, H3. unfold names_in. simpl. rewrite Z.eqb_refl. simpl.
        change [name agent] with (map name [agent]).
        rewrite <- map_app, <- (firstn_S_nth _ _ _ Hnth). reflexivity.
  - (* moderator *)
    apply moderator_shape in Hrun as (cfg & resp & status & _ & ->).
    destruct (order_empty_outside_sequential o st moderator Hs Hn ltac:(discriminate))
      as [Ho Hi].
    destruct Ht as (H1 & H2 & H3 & H4 & H5).
    apply (trans_advance o st _ [create_transcript_entry (NameSpeaker "Moderator") resp
                                   (current_round st)]
             (conj H1 (conj H2 (conj H3 (conj H4 H5)))));
      try reflexivity.
    + exact (is_round_of_type _ _ _ Hn).
    + intros e [<-|[]]. reflexivity.
    + rewrite names_in_app, H3, Ho, firstn_nil. unfold names_in. simpl.
      rewrite Z.eqb_refl. unfold expected_names. rewrite Hn. reflexivity.
    + exact Ho.
Qed.

Lemma skipn_length_app {A} (t u : list A) : skipn (length t) (t ++ u) = u.
Proof. induction t as [|x t IH]; simpl; [reflexivity|exact IH]. Qed.

(** The events [run_debate] yields for a patch that appends [u] (or leaves
    the transcript out): the entries of [u], and no [debate_complete]. *)
Lemma observe_spec (p : Patch) (ls ls' : option StatusContext) (t u : list TranscriptEntry)
    (evs : list Event) (li' : nat) :
  (p_debate_transcript p = None /\ u = [] \/ p_debate_transcript p = Some (t ++ u)) ->
  observe p ls (length t) = (evs, ls', li') ->
  responses evs = u /\ li' = length (t ++ u) /\ ~ In debate_complete evs.
Proof.
  intros Ht H. unfold observe in H.
  match type of H with
  | context [let '(_, _) := ?m in _] => destruct m as [ev1 ls1] eqn:E1
  end.
  assert (Hev1 : responses ev1 = [] /\ ~ In debate_complete ev1).
  { destruct (p_status_context p) as [s|]; [destruct ls as [l|];
      [destruct (StatusContext_eq_dec s l)|]|];
      injection E1 as <- _; split; simpl; try reflexivity; intuition discriminate. }
  destruct Hev1 as [R1 N1].
  assert (Hall : responses (ev1 ++ map agent_response u) = u
                 /\ ~ In debate_complete (ev1 ++ map agent_response u)).
  { rewrite responses_app, R1, responses_map. split; [reflexivity|].
    intros Hin. apply in_app_or in Hin as [Hin|Hin]; [contradiction|].
    apply in_map_iff in Hin as (? & ? & _). discriminate. }
  destruct Ht as [[E ->]|E]; rewrite E in H; simpl in H.
  - injection H as <- _ <-. rewrite app_nil_r. auto.
  - destruct (Nat.ltb_spec (length t) (length (t ++ u))) as [Hlt|Hge].
    + injection H as <- _ <-. rewrite skipn_length_app. destruct Hall. auto.
    + injection H as <- _ <-. rewrite length_app in Hge.
      destruct u as [|x u]; [|simpl in Hge; lia].
      rewrite app_nil_r. auto.
Qed.

Lemma run_node_extends (o : Orchestrator) (n : Node) (st : DebateState) (p : Patch) :
  run_node o n st = Ok p ->
  exists u, (p_debate_transcript p = None /\ u = [])
            \/ p_debate_transcript p = Some (debate_transcript st ++ u).
Proof.
  intros H. destruct n; simpl in H.
  - injection H as <-. exists []. now left.
  - apply parallel_shape in H as (? & ? & ? & _ & _ & ->). eexists. right. reflexivity.
  - injection H as <-. exists []. now left.
  - apply turn_shape in H as (? & ? & ? & ? & _ & _ & [(_ & ->)|(_ & ->)]);
      eexists; right; reflexivity.
  - apply moderator_shape in H as (? & ? & ? & _ & ->). eexists. right. reflexivity.
Qed.

(** The invariant of a run in progress. *)
Definition run_ok (o : Orchestrator) (c : Config) : Prop :=
  state_ok o (cfg_state c) /\ node_ok o (cfg_node c) (cfg_state c)
  /\ trans_ok o (cfg_state c)
  /\ cfg_last_index c = length (debate_transcript (cfg_state c))
  /\ responses (cfg_events c) = debate_transcript (cfg_state c)
  /\ ~ In debate_complete (cfg_events c).

(** One super-step keeps [run_ok]; a last one ends in a state whose
    transcript the events carry. *)
Lemma step_events (o : Orchestrator) (c c' : Config) (p : Patch) (evs : list Event) :
  (forall r l, Permutation (orch_shuffle o r l) l) ->
  run_ok o c ->
  run_node o (cfg_node c) (cfg_state c) = Ok p ->
  cfg_state c' = apply_patch p (cfg_state c) ->
  observe p (cfg_last_status c) (cfg_last_index c) = (evs, cfg_last_status c', cfg_last_index c') ->
  cfg_events c' = cfg_events c ++ evs ->
  trans_ok o (cfg_state c')
  /\ cfg_last_index c' = length (debate_transcript (cfg_state c'))
  /\ responses (cfg_events c') = debate_transcript (cfg_state c')
  /\ ~ In debate_complete (cfg_events c').
Proof.
  intros Hsh (Hs & Hn & Ht & Hi & Hr & Hd) Hrun Hst Hobs Hev.
  destruct (run_node_extends _ _ _ _ Hrun) as [u Hu].
  rewrite Hi in Hobs.
  destruct (observe_spec _ _ _ _ _ _ _ Hu Hobs) as (Ru & Li & Nd).
  assert (Ht' : debate_transcript (cfg_state c') = debate_transcript (cfg_state c) ++ u).
  { rewrite Hst. unfold apply_patch. simpl.
    destruct Hu as [[E ->]|E]; rewrite E; simpl; [now rewrite app_nil_r|reflexivity]. }
  split; [rewrite Hst; exact (run_node_trans o _ _ _ Hsh Hs Hn Ht Hrun)|].
  rewrite Ht'. split; [exact Li|]. rewrite Hev, responses_app, Hr, Ru.
  split; [reflexivity|]. intros Hin. apply in_app_or in Hin as [Hin|Hin]; contradiction.
Qed.

Lemma ordered_rounds_min (s : DebateSpec) (r0 : Z) (rest : list Z) (k : Z) :
  ordered_rounds s = r0 :: rest -> is_round s k -> r0 <= k.
Proof.
  intros E Hk. apply in_ordered_rounds in Hk. rewrite E in Hk.
  pose proof (sort_Z_sorted (map fst (rounds s))) as Hs. fold (ordered_rounds s) in Hs.
  rewrite E in Hs. inversion Hs as [|? ? _ Hall]; subst. rewrite Forall_forall in Hall.
  destruct Hk as [<-|Hk]; [lia|now apply Hall].
Qed.

Lemma initial_run_ok (o : Orchestrator) (tpc : string) (r0 : Z) (rest : list Z) :
  ordered_rounds (orch_spec o) = r0 :: rest -> run_ok o (initial_config o tpc r0).
Proof.
  intros E. split; [apply initial_state_ok|]. split; [exact I|].
  split; [|simpl; split; [reflexivity|split; [reflexivity|intros []]]].
  unfold trans_ok. simpl. split; [intros e []|]. split.
  - intros k Hk Hlt. pose proof (ordered_rounds_min _ _ _ _ E Hk). lia.
  - split; [reflexivity|]. split; [|intros H; contradiction].
    left. apply in_ordered_rounds. rewrite E. now left.
Qed.

(** What a completed stream carries. *)
Definition completed_ok (o : Orchestrator) (evs : list Event) : Prop :=
  (forall k, is_round (orch_spec o) k ->
     Permutation (names_in (responses evs) k) (expected_names o k))
  /\ (forall e, In e (responses evs) -> is_round (orch_spec o) (entry_round e))
  /\ exists pre, evs = pre ++ [debate_complete] /\ ~ In debate_complete pre.

Lemma drive_completed (o : Orchestrator) (budget : nat) (c : Config) (evs : list Event) :
  (forall r l, Permutation (orch_shuffle o r l) l) ->
  run_ok o c -> drive o budget c = Completed evs -> completed_ok o evs.
Proof.
  intros Hsh. revert c. induction budget as [|b IH]; intros c Hok H; simpl in H;
    [discriminate|].
  destruct (step o c) as [c'|c'|evs' f] eqn:E; [| |discriminate].
  - apply (IH c'); [|exact H].
    destruct (step_preserves_ok o c c' (proj1 Hok) (proj1 (proj2 Hok)) E) as [Hs' Hn'].
    destruct (step_next_inv _ _ _ E) as (p & evs1 & Hrun & Hst & _ & Hobs & Hev).
    destruct (step_events o c c' p evs1 Hsh Hok Hrun Hst Hobs Hev) as (Ht' & Hi' & Hr' & Hd').
    exact (conj Hs' (conj Hn' (conj Ht' (conj Hi' (conj Hr' Hd'))))).
  - destruct b; [discriminate|]. injection H as <-.
    destruct (step_finish_inv _ _ _ E) as (p & evs1 & Hrun & Hst & Hend & Hobs & Hev).
    destruct (step_events o c c' p evs1 Hsh Hok Hrun Hst Hobs Hev) as (Ht' & _ & Hr' & Hd').
    destruct (cfg_node c) eqn:En; simpl in Hend, Hrun; try discriminate.
    injection Hrun as <-. apply route_next_end in Hend.
    assert (Er : current_round (cfg_state c') = current_round (cfg_state c))
      by (rewrite Hst; reflexivity).
    destruct Ht' as (H1 & H2 & _ & H4 & _).
    unfold completed_ok. rewrite responses_app. simpl. rewrite app_nil_r, Hr'.
    split; [|split; [intros e Hin; now apply H1|exists (cfg_events c'); now split]].
    intros k Hk. apply H2; [exact Hk|].
    destruct H4 as [Hr|Hall]; [|now apply Hall].
    exfalso. apply is_round_type in Hr. rewrite Er in Hr. contradiction.
Qed.

(** C5: in a run that completes, with [random.shuffle] permuting the
    participants, each round of the spec has exactly one [agent_response]
    per participant (broadcast and turn-based rounds) or exactly one, from
    the moderator (synthesis rounds); every response belongs to a round of
    the spec; and the stream ends with its only [debate_complete]. *)
Theorem run_debate_completed_event_counts (o : Orchestrator) (budget : nat) (tpc : string)
    (evs : list Event) :
  (forall r l, Permutation (orch_shuffle o r l) l) ->
  run_debate_with_limit o budget tpc = Completed evs ->
  (forall k, In k (ordered_rounds (orch_spec o)) ->
     Permutation (names_in (responses evs) k)
       (match type_for_round (orch_spec o) k with
        | Some moderator => ["Moderator"]
        | _ => map name (orch_agents o)
        end)
     /\ length (filter (fun e => Z.eqb (entry_round e) k) (responses evs))
        = match type_for_round (orch_spec o) k with
          | Some moderator => 1%nat
          | _ => length (orch_agents o)
          end)
  /\ (forall e, In e (responses evs) -> In (entry_round e) (ordered_rounds (orch_spec o)))
  /\ exists pre, evs = pre ++ [debate_complete] /\ ~ In debate_complete pre.
Proof.
  intros Hsh H. unfold run_debate_with_limit in H.
  destruct (ordered_rounds (orch_spec o)) as [|r0 rest] eqn:E; [discriminate|].
  destruct (drive_completed o budget _ evs Hsh (initial_run_ok o tpc r0 rest E) H)
    as (Hk & He & Hend).
  rewrite <- E. split; [|split; [|exact Hend]].
  - intros k Hin. apply in_ordered_rounds in Hin. specialize (Hk k Hin).
    unfold expected_names in Hk. split; [exact Hk|].
    apply Permutation_length in Hk. unfold names_in in Hk. rewrite length_map in Hk.
    rewrite Hk. destruct (type_for_round (orch_spec o) k) as [[]|];
      simpl; try reflexivity; apply length_map.
  - intros e Hin. apply in_ordered_rounds. now apply He.
Qed.

Definition reverse_shuffle (_ : Z) (l : list Agent) : list Agent := rev l.

Definition orch5_reversed : Orchestrator := {|
  orch_agents := five_agents; orch_spec := four_round_spec;
  orch_llm := echo_llm; orch_shuffle := reverse_shuffle |}.

Lemma run_debate_completed_event_counts_witness :
  exists evs,
    run_debate_with_limit orch5_reversed 38 "T" = Completed evs
    /\ Permutation (names_in (responses evs) 3) (map name five_agents)
    /\ (exists pre, evs = pre ++ [debate_complete] /\ ~ In debate_complete pre).
Proof.
  eexists. split; [vm_compute; reflexivity|].
  assert (Hsh : forall r l, Permutation (orch_shuffle orch5_reversed r l) l)
    by (intros r l; apply Permutation_sym, Permutation_rev).
  assert (Hrun : run_debate_with_limit orch5_reversed 38 "T" = Completed _)
    by (vm_compute; reflexivity).
  destruct (run_debate_completed_event_counts orch5_reversed 38 "T" _ Hsh Hrun)
    as (Hk & _ & Hend).
  split; [|exact Hend].
  exact (proj1 (Hk 3 ltac:(vm_compute; auto 6))).
Defined.

(* ------------------------------------------------------------------ *)
(** ** Further properties of the code *)

(** *** The spec loader *)

Lemma dict_get_set_eq {V} (d : list (Z * V)) (k : Z) (v : V) :
  dict_get (dict_set d k v) k = Some v.
Proof.
  induction d as [|[k' v'] d IH]; simpl; [now rewrite Z.eqb_refl|].
  destruct (Z.eqb_spec k k') as [<-|Hne]; simpl; [now rewrite Z.eqb_refl|].
  destruct (Z.eqb_spec k k'); [contradiction|exact IH].
Qed.

Lemma dict_get_set_neq {V} (d : list (Z * V)) (k k' : Z) (v : V) :
  k' <> k -> dict_get (dict_set d k v) k' = dict_get d k'.
Proof.
  intros Hne. induction d as [|[k0 v0] d IH]; simpl.
  - destruct (Z.eqb_spec k' k); [contradiction|reflexivity].
  - destruct (Z.eqb_spec k k0) as [<-|Hk0]; simpl.
    + destruct (Z.eqb_spec k' k); [contradiction|reflexivity].
    + destruct (Z.eqb_spec k' k0); [reflexivity|exact IH].
Qed.

Lemma load_rounds_app (l1 l2 : list (Yaml * Yaml)) (acc : RoundsByNumber) :
  load_rounds (l1 ++ l2) acc = bind (load_rounds l1 acc) (fun a => load_rounds l2 a).
Proof.
  revert acc. induction l1 as [|[key cfg] l1 IH]; intros acc; simpl; [reflexivity|].
  destruct (py_int key) as [z|f]; simpl; [|reflexivity].
  destruct (load_round cfg) as [r|f]; simpl; [apply IH|reflexivity].
Qed.

Lemma load_rounds_other (items : list (Yaml * Yaml)) (acc rs : RoundsByNumber) (k : Z) :
  load_rounds items acc = Ok rs ->
  (forall key cfg, In (key, cfg) items -> py_int key <> Ok k) ->
  dict_get rs k = dict_get acc k.
Proof.
  revert acc. induction items as [|[key cfg] items IH]; intros acc H Hk; simpl in H.
  - now injection H as <-.
  - destruct (py_int key) as [z|f] eqn:Ez; simpl in H; [|discriminate].
    destruct (load_round cfg) as [r|f]; simpl in H; [|discriminate].
    rewrite (IH _ H); [|intros key' cfg' Hin; apply (Hk key' cfg'); now right].
    apply dict_get_set_neq. intros ->. apply (Hk key cfg (or_introl eq_refl)), Ez.
Qed.

Lemma load_rounds_keys (items : list (Yaml * Yaml)) (acc rs : RoundsByNumber) (k : Z) :
  load_rounds items acc = Ok rs ->
  (dict_get rs k <> None
   <-> dict_get acc k <> None
       \/ exists key cfg, In (key, cfg) items /\ py_int key = Ok k).
Proof.
  revert acc. induction items as [|[key cfg] items IH]; intros acc H; simpl in H.
  - injection H as <-. split; [now left|].
    intros [Hk|(? & ? & [] & _)]. exact Hk.
  - destruct (py_int key) as [z|f] eqn:Ez; simpl in H; [|discriminate].
    destruct (load_round cfg) as [r|f]; simpl in H; [|discriminate].
    rewrite (IH _ H). destruct (Z.eq_dec k z) as [->|Hne].
    + rewrite dict_get_set_eq. split; [intros _; right; exists key, cfg; now split; [left|]|].
      intros _. left. discriminate.
    + rewrite (dict_get_set_neq _ _ _ _ Hne). split.
      * intros [Hk|(key' & cfg' & Hin & Hp)]; [now left|right].
        exists key', cfg'. split; [now right|exact Hp].
      * intros [Hk|(key' & cfg' & [Heq|Hin] & Hp)]; [now left| |right; now exists key', cfg'].
        injection Heq as -> ->. congruence.
Qed.

Lemma load_rounds_ok_iff (items : list (Yaml * Yaml)) (acc : RoundsByNumber) :
  (exists rs, load_rounds items acc = Ok rs)
  <-> Forall (fun '(key, cfg) => (exists z, py_int key = Ok z)
                                 /\ (exists r, load_round cfg = Ok r)) items.
Proof.
  revert acc. induction items as [|[key cfg] items IH]; intros acc; simpl.
  - split; [constructor|now eexists].
  - rewrite Forall_cons_iff. split.
    + intros [rs H].
      destruct (py_int key) as [z|f]; simpl in H; [|discriminate].
      destruct (load_round cfg) as [r|f]; simpl in H; [|discriminate].
      split; [split; eexists; reflexivity|]. apply (IH (dict_set acc z r)). now exists rs.
    + intros [[[z Hz] [r Hr]] Hall]. rewrite Hz, Hr. simpl. now apply IH.
Qed.

Definition yaml_round (t ty cs pt : string) : Yaml :=
  YMap [(YStr "title", YStr t); (YStr "type", YStr ty);
        (YStr "context_strategy", YStr cs); (YStr "prompt_template", YStr pt)].

(** ["１０"]: U+FF11 U+FF10, the fullwidth digits one and zero, in UTF-8. *)
Definition fullwidth_10 : string :=
  String (ascii_of_nat 239) (String (ascii_of_nat 188) (String (ascii_of_nat 145)
  (String (ascii_of_nat 239) (String (ascii_of_nat 188) (String (ascii_of_nat 144)
  EmptyString))))).

(** A document whose [rounds] keys are ["1_0"], [" 2 "] and ["１０"]: the
    first and the last both convert to 10. *)
Definition doc_colliding_keys : list (Yaml * Yaml) :=
  [(YStr "rounds",
    YMap [(YStr "1_0", yaml_round "Opening" "parallel" "topic_only" "p1");
          (YStr " 2 ", yaml_round "Rebuttal" "sequential" "full_transcript" "p2");
          (YStr fullwidth_10, yaml_round "Synthesis" "moderator" "full_transcript" "p3")])].

(** The same document with the key [""] in place of [" 2 "]. *)
Definition doc_empty_key : list (Yaml * Yaml) :=
  [(YStr "rounds",
    YMap [(YStr "1_0", yaml_round "Opening" "parallel" "topic_only" "p1");
          (YStr "", yaml_round "Rebuttal" "sequential" "full_transcript" "p2")])].

Lemma load_spec_document (kvs items : list (Yaml * Yaml)) (s : DebateSpec) :
  ystr_lookup kvs "rounds" = Some (YMap items) ->
  load_debate_spec_from_yaml (YMap kvs) = Ok s -> load_rounds items [] = Ok (rounds s).
Proof.
  intros Hr H. destruct kvs as [|kv kvs]; [discriminate|].
  cbv beta iota zeta delta [load_debate_spec_from_yaml yaml_truthy yaml_get] in H.
  rewrite Hr in H. simpl in H.
  destruct (load_rounds items []) as [rs|f]; simpl in H; [|discriminate].
  now injection H as <-.
Qed.

(** Loading a mapping document with a [rounds] mapping succeeds exactly
    when every key converts with [int()] and every round has its four fields
    with a valid type and context strategy. *)
Theorem load_debate_spec_ok_iff (kvs items : list (Yaml * Yaml)) :
  ystr_lookup kvs "rounds" = Some (YMap items) ->
  ((exists s, load_debate_spec_from_yaml (YMap kvs) = Ok s)
   <-> Forall (fun '(key, cfg) => (exists z, py_int key = Ok z)
                                  /\ (exists r, load_round cfg = Ok r)) items).
Proof.
  intros Hr. rewrite <- (load_rounds_ok_iff items []).
  destruct kvs as [|kv kvs]; [discriminate|].
  cbv beta iota zeta delta [load_debate_spec_from_yaml yaml_truthy yaml_get].
  rewrite Hr. simpl.
  destruct (load_rounds items []) as [rs|f]; simpl; split; intros [x H];
    try discriminate; eexists; reflexivity.
Qed.

Lemma load_debate_spec_ok_iff_witness :
  (exists s, load_debate_spec_from_yaml (YMap doc_colliding_keys) = Ok s)
  /\ ~ (exists s, load_debate_spec_from_yaml (YMap doc_empty_key) = Ok s).
Proof.
  split.
  - apply (proj2 (load_debate_spec_ok_iff doc_colliding_keys _ eq_refl)).
    repeat constructor; eexists; vm_compute; reflexivity.
  - intros Hs.
    apply (proj1 (load_debate_spec_ok_iff doc_empty_key _ eq_refl)) in Hs.
    inversion Hs as [|kv l _ Hall]; subst.
    inversion Hall as [|kv l Hkv _]; subst.
    simpl in Hkv. destruct Hkv as [[z Hz] _].
    vm_compute in Hz. discriminate.
Defined.

(** The round numbers of a loaded spec are the keys of [rounds] under
    [int()]; when two keys convert to the same number ("1" and "01", say)
    the later entry replaces the earlier one. *)
Theorem load_debate_spec_rounds (kvs items : list (Yaml * Yaml)) (s : DebateSpec) :
  ystr_lookup kvs "rounds" = Some (YMap items) ->
  load_debate_spec_from_yaml (YMap kvs) = Ok s ->
  (forall k, is_round s k <-> exists key cfg, In (key, cfg) items /\ py_int key = Ok k)
  /\ (forall pre key cfg post k,
        items = pre ++ (key, cfg) :: post -> py_int key = Ok k ->
        (forall key' cfg', In (key', cfg') post -> py_int key' <> Ok k) ->
        exists r, load_round cfg = Ok r /\ dict_get (rounds s) k = Some r).
Proof.
  intros Hr H. apply (load_spec_document _ _ _ Hr) in H. split.
  - intros k. unfold is_round. rewrite (load_rounds_keys _ _ _ k H). simpl.
    split; [intros [Hk|Hk]; [contradiction|exact Hk]|intros Hk; now right].
  - intros pre key cfg post k -> Hk Hpost.
    rewrite load_rounds_app in H.
    destruct (load_rounds pre []) as [a|f]; simpl in H; [|discriminate].
    rewrite Hk in H. simpl in H.
    destruct (load_round cfg) as [r|f]; simpl in H; [|discriminate].
    exists r. split; [reflexivity|].
    rewrite (load_rounds_other _ _ _ _ H Hpost). apply dict_get_set_eq.
Qed.

Lemma load_debate_spec_rounds_witness :
  exists s, load_debate_spec_from_yaml (YMap doc_colliding_keys) = Ok s
            /\ (forall k, is_round s k <-> k = 2 \/ k = 10)
            /\ type_for_round s 10 = Some moderator.
Proof.
  eexists. split; [vm_compute; reflexivity|].
  destruct (load_debate_spec_rounds doc_colliding_keys _ _ eq_refl
              ltac:(vm_compute; reflexivity)) as [Hk Hlast].
  split.
  - intros k. rewrite Hk. split.
    + intros (key & cfg & [E|[E|[E|[]]]] & Hp); injection E as <- <-;
        vm_compute in Hp; injection Hp as <-; auto.
    + intros [-> | ->].
      * exists (YStr " 2 "), (yaml_round "Rebuttal" "sequential" "full_transcript" "p2").
        split; [right; now left|reflexivity].
      * exists (YStr "1_0"), (yaml_round "Opening" "parallel" "topic_only" "p1").
        split; [now left|reflexivity].
  - destruct (Hlast [(YStr "1_0", yaml_round "Opening" "parallel" "topic_only" "p1");
                     (YStr " 2 ", yaml_round "Rebuttal" "sequential" "full_transcript" "p2")]
                (YStr fullwidth_10) (yaml_round "Synthesis" "moderator" "full_transcript" "p3")
                [] 10 eq_refl ltac:(vm_compute; reflexivity) ltac:(intros ? ? []))
      as (r & Hr & Hget).
    unfold type_for_round. rewrite Hget. vm_compute in Hr. injection Hr as <-. reflexivity.
Defined.

(** A document that is not a mapping (and not empty), or whose [rounds]
    value is present but not a mapping ([rounds: null] included), raises
    [AttributeError]; a falsy document or one without [rounds] loads as a
    spec without rounds. *)
Theorem load_debate_spec_shapes (y : Yaml) :
  (yaml_truthy y = false -> load_debate_spec_from_yaml y = Ok {| rounds := [] |})
  /\ (yaml_truthy y = true ->
      (forall kvs, y <> YMap kvs) ->
      exists msg, load_debate_spec_from_yaml y = Err (py_exc "AttributeError" msg))
  /\ (forall kvs, y = YMap kvs ->
      (ystr_lookup kvs "rounds" = None ->
         load_debate_spec_from_yaml y = Ok {| rounds := [] |})
      /\ (forall v, ystr_lookup kvs "rounds" = Some v -> (forall items, v <> YMap items) ->
          exists msg, load_debate_spec_from_yaml y = Err (py_exc "AttributeError" msg))).
Proof.
  split; [|split].
  - intros Ht. unfold load_debate_spec_from_yaml. rewrite Ht. reflexivity.
  - intros Ht Hnm. unfold load_debate_spec_from_yaml. rewrite Ht.
    destruct y; try (eexists; reflexivity). exfalso. exact (Hnm kvs eq_refl).
  - intros kvs ->. split.
    + intros Hr. unfold load_debate_spec_from_yaml.
      destruct kvs as [|kv kvs]; [reflexivity|].
      cbv beta iota zeta delta [yaml_truthy yaml_get]. rewrite Hr. reflexivity.
    + intros v Hr Hv. destruct kvs as [|kv kvs]; [discriminate|].
      cbv beta iota zeta delta [load_debate_spec_from_yaml yaml_truthy yaml_get].
      rewrite Hr. simpl.
      destruct v; try (eexists; reflexivity). exfalso. exact (Hv kvs0 eq_refl).
Qed.

Lemma load_debate_spec_shapes_witness :
  exists msg,
    load_debate_spec_from_yaml (YMap [(YStr "rounds", YNull)])
    = Err (py_exc "AttributeError" msg).
Proof.
  destruct (load_debate_spec_shapes (YMap [(YStr "rounds", YNull)])) as (_ & _ & H).
  apply (proj2 (H _ eq_refl) YNull eq_refl). intros items. discriminate.
Defined.

(** *** Helpers of the orchestrator *)

(** [self._first_sequential_round] of [__init__]:
    [next((r for r in self._ordered_rounds
           if self.debate_spec.type_for_round(r) == RoundType.sequential), None)]. *)
Definition is_sequential_round (s : DebateSpec) (r : Z) : bool :=
  match type_for_round s r with Some sequential => true | _ => false end.

Definition first_sequential_round (s : DebateSpec) : option Z :=
  find (is_sequential_round s) (ordered_rounds s).

Lemma find_sorted_least (f : Z -> bool) (l : list Z) (r : Z) :
  StronglySorted Z.le l -> find f l = Some r ->
  forall k, In k l -> f k = true -> r <= k.
Proof.
  induction l as [|x xs IH]; simpl; intros Hs H k Hk Hf; [discriminate|].
  inversion Hs as [|? ? Hxs Hall]; subst. rewrite Forall_forall in Hall.
  destruct (f x) eqn:Ex.
  - injection H as <-. destruct Hk as [<-|Hk]; [lia|now apply Hall].
  - destruct Hk as [<-|Hk]; [congruence|]. exact (IH Hxs H k Hk Hf).
Qed.

Lemma is_sequential_round_true (s : DebateSpec) (r : Z) :
  is_sequential_round s r = true <-> type_for_round s r = Some sequential.
Proof.
  unfold is_sequential_round. destruct (type_for_round s r) as [[]|]; split; congruence.
Qed.

(** [_first_sequential_round] is the smallest round number whose round is
    sequential, or [None] when the spec has no sequential round. *)
Theorem first_sequential_round_spec (s : DebateSpec) :
  (forall r, first_sequential_round s = Some r
             <-> type_for_round s r = Some sequential
                 /\ forall k, type_for_round s k = Some sequential -> r <= k)
  /\ (first_sequential_round s = None
      <-> forall k, type_for_round s k <> Some sequential).
Proof.
  assert (Hin : forall k, type_for_round s k = Some sequential -> In k (ordered_rounds s)).
  { intros k Hk. apply in_ordered_rounds. apply is_round_type. congruence. }
  assert (Hleast : forall r, first_sequential_round s = Some r ->
                   forall k, type_for_round s k = Some sequential -> r <= k).
  { intros r H k Hk. apply (find_sorted_least _ _ _ (sort_Z_sorted _) H k (Hin k Hk)).
    now apply is_sequential_round_true. }
  unfold first_sequential_round in *. split.
  - intros r. split.
    + intros H. split; [|exact (Hleast r H)].
      apply find_some in H as [_ H]. now apply is_sequential_round_true.
    + intros [Hr Hmin].
      destruct (find (is_sequential_round s) (ordered_rounds s)) as [r'|] eqn:E.
      * specialize (Hleast r' eq_refl r Hr).
        apply find_some in E as [_ E]. apply is_sequential_round_true in E.
        specialize (Hmin r' E). f_equal. lia.
      * exfalso. pose proof (find_none _ _ E r (Hin r Hr)) as Hf.
        apply is_sequential_round_true in Hr. congruence.
  - split.
    + intros H k Hk. pose proof (find_none _ _ H k (Hin k Hk)) as Hf.
      apply is_sequential_round_true in Hk. congruence.
    + intros Hno. destruct (find (is_sequential_round s) (ordered_rounds s)) as [r|] eqn:E;
        [|reflexivity].
      apply find_some in E as [_ E]. apply is_sequential_round_true in E.
      exfalso. exact (Hno r E).
Qed.

(** [_next_round_number] returns the smallest round number of the spec
    above the current one, skipping gaps in the numbering, and
    [current_round + 1] (a number outside the spec) when there is none. *)
Theorem next_round_number_least_above (s : DebateSpec) (r : Z) :
  (forall k, type_for_round s k <> None -> r < k ->
     type_for_round s (next_round_number s r) <> None
     /\ r < next_round_number s r
     /\ next_round_number s r <= k)
  /\ ((forall k, type_for_round s k <> None -> k <= r) ->
      next_round_number s r = r + 1
      /\ type_for_round s (next_round_number s r) = None).
Proof.
  destruct (next_round_number_spec s r) as [(Hn & Hlt & Hmin)|(Hall & Heq)]; split.
  - intros k Hk Hrk. apply is_round_type in Hk.
    split; [now apply is_round_type|split; [exact Hlt|now apply Hmin]].
  - intros Hall. exfalso. apply is_round_type in Hn. specialize (Hall _ Hn). lia.
  - intros k Hk Hrk. apply is_round_type in Hk. specialize (Hall k Hk). lia.
  - intros _. split; [exact Heq|]. rewrite Heq.
    destruct (type_for_round s (r + 1)) eqn:E; [|reflexivity].
    exfalso. assert (Hk : is_round s (r + 1)) by (apply is_round_type; congruence).
    specialize (Hall _ Hk). lia.
Qed.

Definition spec_1_3 : DebateSpec := {| rounds := [
  (3, mk_round "Synthesis" moderator full_transcript);
  (1, mk_round "Opening Statements" parallel topic_only)] |}.

Lemma next_round_number_least_above_witness :
  type_for_round spec_1_3 3 <> None /\ 1 < 3 /\ next_round_number spec_1_3 1 <= 3
  /\ next_round_number spec_1_3 3 = 4.
Proof.
  assert (H3 : type_for_round spec_1_3 3 <> None) by discriminate.
  split; [exact H3|]. split; [lia|]. split.
  - exact (proj2 (proj2 (proj1 (next_round_number_least_above spec_1_3 1) 3 H3
                                 ltac:(lia)))).
  - apply (proj2 (next_round_number_least_above spec_1_3 3)).
    intros k Hk. unfold type_for_round in Hk. simpl in Hk.
    destruct (Z.eqb_spec k 3); [lia|]. destruct (Z.eqb_spec k 1); [lia|]. contradiction.
Defined.

(** [_get_randomized_agents] returns the shuffled copy, or the shuffled copy
    with its first agent moved to the end; when [random.shuffle] permutes
    the copy, the result is a permutation of the participants. *)
Theorem get_randomized_agents_rotation (l : list Agent) (sh : list Agent -> list Agent)
    (x : option string) :
  (l = [] -> get_randomized_agents l sh x = [])
  /\ (l <> [] ->
      get_randomized_agents l sh x = sh l
      \/ exists first rest, sh l = first :: rest
                            /\ get_randomized_agents l sh x = rest ++ [first]
                            /\ rest <> []
                            /\ x = Some (id first) /\ id first <> EmptyString)
  /\ (Permutation (sh l) l -> Permutation (get_randomized_agents l sh x) l).
Proof.
  split; [intros ->; reflexivity|split].
  - intros Hne. destruct l as [|a l]; [contradiction|]. simpl.
    destruct (sh (a :: l)) as [|first rest] eqn:E; [now left|].
    destruct (str_truthy x && (1 <? Z.of_nat (length (first :: rest)))
              && match x with Some v => String.eqb (id first) v | None => false end) eqn:G;
      [right|now left].
    apply andb_prop in G as [G Hid]. apply andb_prop in G as [Ht Hlen].
    destruct x as [v|]; [|discriminate].
    apply String.eqb_eq in Hid. subst v.
    exists first, rest. split; [reflexivity|]. split; [reflexivity|].
    split; [|split; [reflexivity|]].
    + intros ->. simpl in Hlen. discriminate.
    + unfold str_truthy in Ht. intros He. rewrite He in Ht. discriminate.
  - intros Hp. destruct l as [|a l]; simpl; [constructor|].
    destruct (sh (a :: l)) as [|f rest] eqn:E; [exact Hp|].
    destruct (_ && _ && _); [|exact Hp].
    eapply Permutation_trans; [|exact Hp]. apply Permutation_sym, Permutation_cons_append.
Qed.

(** [_route_debate] followed by the conditional edge: a round that is not
    in the spec ends the run, and a round of the spec goes to the node of
    its type (set-up first for a sequential round without an order); the
    edge lookup never meets a code outside its map. *)
Theorem route_debate_edge (o : Orchestrator) (st : DebateState) :
  next_target n_route_debate (apply_patch (route_debate o st) st)
  = Ok (match type_for_round (orch_spec o) (current_round st) with
        | None => ToEND
        | Some parallel => ToNode n_execute_parallel_round
        | Some sequential =>
            match round_agent_order st with
            | [] => ToNode n_setup_sequential_round
            | _ => ToNode n_execute_sequential_turn
            end
        | Some moderator => ToNode n_execute_moderator_round
        end).
Proof.
  unfold next_target, route_debate, status_patch, route_code. simpl.
  destruct (type_for_round (orch_spec o) (current_round st)) as [[]|];
    [| destruct (round_agent_order st) | |]; reflexivity.
Qed.

(** *** The event stream of any run *)

(** The events a run yielded, whether it completed or was aborted. *)
Definition outcome_events (r : Outcome) : list Event :=
  match r with Completed evs => evs | Aborted evs _ => evs end.

(** The [status_update] payloads of a stream, in order. *)
Definition status_updates (evs : list Event) : list StatusContext :=
  flat_map (fun ev => match ev with status_update s => [s] | _ => [] end) evs.

Fixpoint last_opt {A} (l : list A) : option A :=
  match l with
  | [] => None
  | [x] => Some x
  | _ :: rest => last_opt rest
  end.

Fixpoint adj_distinct (l : list StatusContext) : Prop :=
  match l with
  | x :: ((y :: _) as rest) => x <> y /\ adj_distinct rest
  | _ => True
  end.

Lemma status_updates_app (l1 l2 : list Event) :
  status_updates (l1 ++ l2) = status_updates l1 ++ status_updates l2.
Proof. unfold status_updates. apply flat_map_app. Qed.

Lemma status_updates_responses (t : list TranscriptEntry) :
  status_updates (map agent_response t) = [].
Proof. induction t; simpl; auto. Qed.

Lemma adj_distinct_snoc (l : list StatusContext) (s : StatusContext) :
  adj_distinct l -> last_opt l <> Some s ->
  adj_distinct (l ++ [s]) /\ last_opt (l ++ [s]) = Some s.
Proof.
  induction l as [|x l IH]; intros Hd Hl; [split; [exact I|reflexivity]|].
  destruct l as [|y l].
  - simpl in *. split; [split; [congruence|exact I]|reflexivity].
  - destruct Hd as [Hxy Hd]. destruct (IH Hd Hl) as [Hd' Hl'].
    split.
    + change (x <> y /\ adj_distinct ((y :: l) ++ [s])). now split.
    + change (last_opt ((y :: l) ++ [s]) = Some s). exact Hl'.
Qed.

Lemma adj_distinct_tail (x : StatusContext) (l : list StatusContext) :
  adj_distinct (x :: l) -> adj_distinct l.
Proof. destruct l as [|y l]; [intros _; exact I|intros [_ H]; exact H]. Qed.

Lemma adj_distinct_split (l : list StatusContext) :
  adj_distinct l -> forall pre a b post, l = pre ++ a :: b :: post -> a <> b.
Proof.
  intros Hd pre. revert l Hd. induction pre as [|x pre IH]; intros l Hd a b post ->.
  - exact (proj1 Hd).
  - exact (IH _ (adj_distinct_tail _ _ Hd) a b post eq_refl).
Qed.

(** What one observed patch adds to the stream: no [debate_complete], and
    a status only when it differs from the last one yielded. *)
Lemma observe_events (p : Patch) (ls ls' : option StatusContext) (li li' : nat)
    (evs : list Event) :
  observe p ls li = (evs, ls', li') ->
  ~ In debate_complete evs
  /\ ((status_updates evs = [] /\ ls' = ls)
      \/ exists s, status_updates evs = [s] /\ ls' = Some s /\ ls <> Some s).
Proof.
  intros H. unfold observe in H.
  match type of H with
  | context [let '(_, _) := ?m in _] => destruct m as [ev1 ls1] eqn:E1
  end.
  assert (Hev1 : ~ In debate_complete ev1
                 /\ ((status_updates ev1 = [] /\ ls1 = ls)
                     \/ exists s, status_updates ev1 = [s] /\ ls1 = Some s /\ ls <> Some s)).
  { destruct (p_status_context p) as [s|]; [destruct ls as [l|];
      [destruct (StatusContext_eq_dec s l)|]|]; injection E1 as <- <-.
    - split; [intros []|left; now split].
    - split; [intros [H'|[]]; discriminate|right; exists s].
      split; [reflexivity|split; [reflexivity|congruence]].
    - split; [intros [H'|[]]; discriminate|right; exists s].
      split; [reflexivity|split; [reflexivity|discriminate]].
    - split; [intros []|left; now split]. }
  destruct Hev1 as [N1 S1].
  destruct (Nat.ltb li (length (upd (p_debate_transcript p) []))); injection H as <- <- _.
  - rewrite status_updates_app, status_updates_responses, app_nil_r. split; [|exact S1].
    intros Hin. apply in_app_or in Hin as [Hin|Hin]; [contradiction|].
    apply in_map_iff in Hin as (? & ? & _). discriminate.
  - split; assumption.
Qed.

Lemma step_stop_inv (o : Orchestrator) (c : Config) (evs : list Event) (f : Fault) :
  step o c = Stop evs f ->
  evs = cfg_events c
  \/ exists p evs' ls li,
       run_node o (cfg_node c) (cfg_state c) = Ok p
       /\ observe p (cfg_last_status c) (cfg_last_index c) = (evs', ls, li)
       /\ evs = cfg_events c ++ evs'.
Proof.
  unfold step. destruct (run_node o (cfg_node c) (cfg_state c)) as [p|f'].
  - destruct (observe p (cfg_last_status c) (cfg_last_index c)) as [[evs' ls] li] eqn:Eo.
    destruct (next_target (cfg_node c) _) as [[n|]|f'']; try discriminate.
    intros H. injection H as <- _. right. now exists p, evs', ls, li.
  - intros H. injection H as <- _. now left.
Qed.

(** An invariant of the driver's configurations gives a property of the
    events of every outcome. *)
Lemma drive_invariant (o : Orchestrator) (P : Config -> Prop) (Q : list Event -> Prop) :
  (forall c c', P c -> step o c = Next c' -> P c') ->
  (forall c, P c -> Q (cfg_events c)) ->
  (forall c evs f, P c -> step o c = Stop evs f -> Q evs) ->
  (forall c c', P c -> step o c = Finish c' ->
     Q (cfg_events c') /\ Q (cfg_events c' ++ [debate_complete])) ->
  forall budget c, P c -> Q (outcome_events (drive o budget c)).
Proof.
  intros Hnext Hnow Hstop Hfin budget. induction budget as [|b IH]; intros c Hc; simpl.
  - exact (Hnow c Hc).
  - destruct (step o c) as [c'|c'|evs f] eqn:E.
    + exact (IH c' (Hnext c c' Hc E)).
    + destruct b; [exact (proj1 (Hfin c c' Hc E))|exact (proj2 (Hfin c c' Hc E))].
    + exact (Hstop c evs f Hc E).
Qed.

Lemma run_outcome_events (o : Orchestrator) (budget : nat) (tpc : string)
    (P : Config -> Prop) (Q : list Event -> Prop) :
  Q [] ->
  (forall r0, P (initial_config o tpc r0)) ->
  (forall budget' c, P c -> Q (outcome_events (drive o budget' c))) ->
  Q (outcome_events (run_debate_with_limit o budget tpc)).
Proof.
  intros Hnil Hinit Hdrive. unfold run_debate_with_limit.
  destruct (ordered_rounds (orch_spec o)) as [|r0 rest]; [exact Hnil|].
  apply Hdrive, Hinit.
Qed.

Lemma observe_status_extend (p : Patch) (l : list Event) (ls ls' : option StatusContext)
    (li li' : nat) (evs : list Event) :
  ls = last_opt (status_updates l) -> adj_distinct (status_updates l) ->
  observe p ls li = (evs, ls', li') ->
  ls' = last_opt (status_updates (l ++ evs)) /\ adj_distinct (status_updates (l ++ evs)).
Proof.
  intros Hls Hd Hobs. rewrite status_updates_app.
  destruct (observe_events _ _ _ _ _ _ Hobs) as [_ [[-> ->]|(s & -> & -> & Hne)]].
  - rewrite app_nil_r. now split.
  - rewrite Hls in Hne. destruct (adj_distinct_snoc _ s Hd Hne) as [Hd' Hl'].
    now split.
Qed.

(** [run_debate] yields a status only when it differs from the last one it
    yielded: in the stream of any run, completed or aborted, no two
    successive [status_update] events carry the same status. *)
Theorem run_debate_status_updates_change (o : Orchestrator) (budget : nat) (tpc : string)
    (pre : list StatusContext) (s1 s2 : StatusContext) (post : list StatusContext) :
  status_updates (outcome_events (run_debate_with_limit o budget tpc))
  = pre ++ s1 :: s2 :: post ->
  s1 <> s2.
Proof.
  apply adj_distinct_split.
  set (P := fun c : Config => cfg_last_status c = last_opt (status_updates (cfg_events c))
                              /\ adj_distinct (status_updates (cfg_events c))).
  set (Q := fun evs => adj_distinct (status_updates evs)).
  apply (run_outcome_events o budget tpc P Q); [exact I|intros r0; split; reflexivity|].
  intros budget' c0 Hc0. apply (drive_invariant o P Q); [| | | |exact Hc0].
  - intros c c' [Hls Hd] E.
    destruct (step_next_inv _ _ _ E) as (p & evs & _ & _ & _ & Hobs & Hev).
    unfold P. rewrite Hev. exact (observe_status_extend _ _ _ _ _ _ _ Hls Hd Hobs).
  - intros c [_ Hd]. exact Hd.
  - intros c evs f [Hls Hd] E.
    destruct (step_stop_inv _ _ _ _ E) as [->|(p & evs' & ls & li & _ & Hobs & ->)];
      [exact Hd|].
    exact (proj2 (observe_status_extend _ _ _ _ _ _ _ Hls Hd Hobs)).
  - intros c c' [Hls Hd] E.
    destruct (step_finish_inv _ _ _ E) as (p & evs & _ & _ & _ & Hobs & Hev).
    assert (H : Q (cfg_events c' ++ [debate_complete])).
    { unfold Q. rewrite status_updates_app, app_nil_r, Hev.
      exact (proj2 (observe_status_extend _ _ _ _ _ _ _ Hls Hd Hobs)). }
    split; [|exact H]. unfold Q in *. rewrite status_updates_app in H. simpl in H.
    rewrite app_nil_r in H. exact H.
Qed.

Lemma run_debate_status_updates_change_witness :
  SCode "OPENING_STATEMENTS" <> SRoundStarting 1 "Opening Statements" "parallel".
Proof.
  apply (run_debate_status_updates_change orch5 3 "T" []
           (SCode "OPENING_STATEMENTS") (SRoundStarting 1 "Opening Statements" "parallel")
           [SCode "SETUP_SEQUENTIAL_ROUND"]).
  vm_compute. reflexivity.
Defined.

Lemma drive_debate_complete (o : Orchestrator) (budget : nat) (c : Config) :
  ~ In debate_complete (cfg_events c) ->
  match drive o budget c with
  | Completed evs => exists pre, evs = pre ++ [debate_complete] /\ ~ In debate_complete pre
  | Aborted evs _ => ~ In debate_complete evs
  end.
Proof.
  revert c. induction budget as [|b IH]; intros c Hc; simpl; [exact Hc|].
  assert (Hext : forall p evs ls li,
             observe p (cfg_last_status c) (cfg_last_index c) = (evs, ls, li) ->
             ~ In debate_complete (cfg_events c ++ evs)).
  { intros p evs ls li Hobs Hin. apply in_app_or in Hin as [Hin|Hin]; [contradiction|].
    exact (proj1 (observe_events _ _ _ _ _ _ Hobs) Hin). }
  destruct (step o c) as [c'|c'|evs f] eqn:E.
  - apply IH. destruct (step_next_inv _ _ _ E) as (p & evs & _ & _ & _ & Hobs & ->).
    exact (Hext _ _ _ _ Hobs).
  - destruct (step_finish_inv _ _ _ E) as (p & evs & _ & _ & _ & Hobs & Hev).
    pose proof (Hext _ _ _ _ Hobs) as Hn. rewrite <- Hev in Hn.
    destruct b; [exact Hn|]. exists (cfg_events c'). split; [reflexivity|exact Hn].
  - destruct (step_stop_inv _ _ _ _ E) as [->|(p & evs' & ls & li & _ & Hobs & ->)];
      [exact Hc|exact (Hext _ _ _ _ Hobs)].
Qed.

(** Whatever the orchestrator, its collaborator or the recursion limit, a
    run that completes yields [debate_complete] once, as its last event, and
    a run that is aborted yields no [debate_complete] at all. *)
Theorem run_debate_complete_event (o : Orchestrator) (budget : nat) (tpc : string) :
  match run_debate_with_limit o budget tpc with
  | Completed evs => exists pre, evs = pre ++ [debate_complete] /\ ~ In debate_complete pre
  | Aborted evs _ => ~ In debate_complete evs
  end.
Proof.
  unfold run_debate_with_limit.
  destruct (ordered_rounds (orch_spec o)) as [|r0 rest]; [intros []|].
  apply drive_debate_complete. intros [].
Qed.

Lemma StronglySorted_app_le (xs ys : list Z) :
  StronglySorted Z.le xs -> StronglySorted Z.le ys ->
  (forall x y, In x xs -> In y ys -> x <= y) -> StronglySorted Z.le (xs ++ ys).
Proof.
  induction xs as [|x xs IH]; intros Hx Hy Hle; simpl; [exact Hy|].
  inversion Hx as [|? ? Hxs Hall]; subst. constructor.
  - apply IH; [exact Hxs|exact Hy|]. intros a b Ha Hb. apply Hle; [now right|exact Hb].
  - apply Forall_app. split; [exact Hall|].
    apply Forall_forall. intros y Hy'. apply Hle; [now left|exact Hy'].
Qed.

Lemma StronglySorted_const (l : list Z) (r : Z) :
  Forall (fun x => x = r) l -> StronglySorted Z.le l.
Proof.
  induction l as [|x l IH]; intros H; [constructor|].
  inversion H as [|? ? Hx Hl]; subst. constructor; [now apply IH|].
  apply Forall_forall. intros y Hy. rewrite Forall_forall in Hl. rewrite (Hl y Hy). lia.
Qed.

(** Every node appends entries of the current round only, and never moves
    the current round back. *)
Lemma run_node_rounds (o : Orchestrator) (n : Node) (st : DebateState) (p : Patch) :
  run_node o n st = Ok p ->
  exists u, ((p_debate_transcript p = None /\ u = [])
             \/ p_debate_transcript p = Some (debate_transcript st ++ u))
            /\ Forall (fun e => entry_round e = current_round st) u
            /\ current_round st <= current_round (apply_patch p st).
Proof.
  pose proof (next_round_number_gt (orch_spec o) (current_round st)) as Hgt.
  intros H. destruct n; simpl in H.
  - injection H as <-. exists []. split; [now left|split; [constructor|simpl; lia]].
  - apply parallel_shape in H as (? & results & ? & _ & _ & ->). eexists.
    split; [right; reflexivity|]. split; [|simpl; lia].
    apply Forall_forall. intros e He. exact (broadcast_rounds _ _ _ _ He).
  - injection H as <-. exists []. split; [now left|split; [constructor|simpl; lia]].
  - apply turn_shape in H as (? & ? & ? & ? & _ & _ & [(_ & ->)|(_ & ->)]);
      (eexists; split; [right; reflexivity|]);
      (split; [repeat constructor|simpl; lia]).
  - apply moderator_shape in H as (? & ? & ? & _ & ->). eexists.
    split; [right; reflexivity|]. split; [repeat constructor|simpl; lia].
Qed.

Definition rounds_ok (c : Config) : Prop :=
  responses (cfg_events c) = debate_transcript (cfg_state c)
  /\ cfg_last_index c = length (debate_transcript (cfg_state c))
  /\ StronglySorted Z.le (map entry_round (debate_transcript (cfg_state c)))
  /\ Forall (fun e => entry_round e <= current_round (cfg_state c))
            (debate_transcript (cfg_state c)).

Lemma rounds_ok_extend (o : Orchestrator) (c : Config) (p : Patch) (evs : list Event)
    (ls : option StatusContext) (li : nat) :
  rounds_ok c -> run_node o (cfg_node c) (cfg_state c) = Ok p ->
  observe p (cfg_last_status c) (cfg_last_index c) = (evs, ls, li) ->
  let st' := apply_patch p (cfg_state c) in
  responses (cfg_events c ++ evs) = debate_transcript st'
  /\ li = length (debate_transcript st')
  /\ StronglySorted Z.le (map entry_round (debate_transcript st'))
  /\ Forall (fun e => entry_round e <= current_round st') (debate_transcript st').
Proof.
  intros (Hr & Hi & Hs & Hf) Hrun Hobs st'.
  destruct (run_node_rounds _ _ _ _ Hrun) as (u & Hu & Hur & Hle).
  rewrite Hi in Hobs. destruct (observe_spec _ _ _ _ _ _ _ Hu Hobs) as (Ru & Li & _).
  assert (Ht : debate_transcript st' = debate_transcript (cfg_state c) ++ u).
  { unfold st', apply_patch. simpl.
    destruct Hu as [[E ->]|E]; rewrite E; simpl; [now rewrite app_nil_r|reflexivity]. }
  fold st' in Hle. rewrite Ht, responses_app, Hr, Ru.
  rewrite Forall_forall in Hf, Hur.
  split; [reflexivity|]. split; [exact Li|]. split.
  - rewrite map_app. apply StronglySorted_app_le; [exact Hs| |].
    + apply (StronglySorted_const _ (current_round (cfg_state c))).
      apply Forall_forall. intros x Hx. apply in_map_iff in Hx as (e & <- & He).
      now apply Hur.
    + intros x y Hx Hy. apply in_map_iff in Hx as (e & <- & He).
      apply in_map_iff in Hy as (e' & <- & He'). rewrite (Hur e' He'). now apply Hf.
  - apply Forall_forall. intros e He. apply in_app_or in He as [He|He].
    + specialize (Hf e He). lia.
    + rewrite (Hur e He). exact Hle.
Qed.

(** In the stream of any run, completed or aborted, the [agent_response]
    events come in round order: their round numbers never decrease, so the
    responses of a round are never interleaved with those of another. *)
Theorem run_debate_responses_in_round_order (o : Orchestrator) (budget : nat) (tpc : string) :
  Sorted Z.le (map entry_round (responses (outcome_events (run_debate_with_limit o budget tpc)))).
Proof.
  apply StronglySorted_Sorted.
  set (Q := fun evs => StronglySorted Z.le (map entry_round (responses evs))).
  apply (run_outcome_events o budget tpc rounds_ok Q);
    [constructor|intros r0; repeat split; constructor|].
  intros budget' c0 Hc0. apply (drive_invariant o rounds_ok Q); [| | | |exact Hc0].
  - intros c c' Hc E.
    destruct (step_next_inv _ _ _ E) as (p & evs & Hrun & Hst & _ & Hobs & Hev).
    destruct (rounds_ok_extend o c p evs _ _ Hc Hrun Hobs) as (H1 & H2 & H3 & H4).
    unfold rounds_ok. rewrite Hev, Hst. now split; [|split; [|split]].
  - intros c (Hr & _ & Hs & _). unfold Q. now rewrite Hr.
  - intros c evs f Hc E.
    destruct (step_stop_inv _ _ _ _ E) as [->|(p & evs' & ls & li & Hrun & Hobs & ->)].
    + destruct Hc as (Hr & _ & Hs & _). unfold Q. now rewrite Hr.
    + destruct (rounds_ok_extend o c p evs' _ _ Hc Hrun Hobs) as (H1 & _ & H3 & _).
      unfold Q. now rewrite H1.
  - intros c c' Hc E.
    destruct (step_finish_inv _ _ _ E) as (p & evs & Hrun & Hst & _ & Hobs & Hev).
    destruct (rounds_ok_extend o c p evs _ _ Hc Hrun Hobs) as (H1 & _ & H3 & _).
    assert (H : Q (cfg_events c' ++ [debate_complete])).
    { unfold Q. rewrite responses_app, Hev, H1. simpl. now rewrite app_nil_r. }
    split; [|exact H]. unfold Q in *. rewrite responses_app in H. simpl in H.
    rewrite app_nil_r in H. exact H.
Qed.

(** *** Runs without participants *)

Definition empty_panel_ok (o : Orchestrator) (c : Config) : Prop :=
  let st := cfg_state c in
  state_ok o st /\ node_ok o (cfg_node c) st
  /\ round_agent_order st = []
  /\ (is_round (orch_spec o) (current_round st)
      \/ forall k, is_round (orch_spec o) k -> k < current_round st)
  /\ (forall s, type_for_round (orch_spec o) s = Some sequential -> current_round st <= s).

Lemma next_round_below_sequential (o : Orchestrator) (r : Z) (t : RoundType) :
  type_for_round (orch_spec o) r = Some t -> t <> sequential ->
  (forall s, type_for_round (orch_spec o) s = Some sequential -> r <= s) ->
  forall s, type_for_round (orch_spec o) s = Some sequential ->
            next_round_number (orch_spec o) r <= s.
Proof.
  intros Ht Hne Hle s Hs. specialize (Hle s Hs).
  assert (Hrs : r <> s) by (intros ->; congruence).
  destruct (Z.le_gt_cases (next_round_number (orch_spec o) r) s) as [|Hgt]; [assumption|].
  exfalso. assert (Hk : is_round (orch_spec o) s) by (apply is_round_type; congruence).
  pose proof (keys_below_next _ _ _ Hk Hgt). lia.
Qed.

Lemma empty_panel_step (o : Orchestrator) (c c' : Config) :
  orch_agents o = [] -> empty_panel_ok o c -> step o c = Next c' -> empty_panel_ok o c'.
Proof.
  intros Hno (Hs & Hn & Ho & Hpos & Hseq) E.
  destruct (step_preserves_ok o c c' Hs Hn E) as [Hs' Hn'].
  destruct (step_next_inv _ _ _ E) as (p & evs & Hrun & Hst & _ & _ & _).
  unfold empty_panel_ok. rewrite Hst in Hs', Hn' |- *.
  split; [exact Hs'|]. split; [exact Hn'|]. clear Hs' Hn' E Hst.
  destruct (cfg_node c); simpl in Hrun, Hn.
  - injection Hrun as <-. exact (conj Ho (conj Hpos Hseq)).
  - apply parallel_shape in Hrun as (? & ? & ? & _ & _ & ->). simpl.
    split; [exact Ho|]. split; [apply next_round_position|].
    exact (next_round_below_sequential o _ parallel Hn ltac:(discriminate) Hseq).
  - injection Hrun as <-. unfold setup_sequential_round, apply_patch. simpl.
    rewrite Hno. split; [reflexivity|]. exact (conj Hpos Hseq).
  - destruct Hn as [_ Hne]. contradiction.
  - apply moderator_shape in Hrun as (? & ? & ? & _ & ->). simpl.
    split; [exact Ho|]. split; [apply next_round_position|].
    exact (next_round_below_sequential o _ moderator Hn ltac:(discriminate) Hseq).
Qed.

(** With no participants, a spec with a sequential round never completes:
    the set-up of that round leaves the order empty, so the router sends
    it back to the set-up until the recursion limit aborts the run. *)
Theorem run_debate_no_participants_never_completes (o : Orchestrator) (budget : nat)
    (tpc : string) (evs : list Event) (s : Z) :
  orch_agents o = [] -> type_for_round (orch_spec o) s = Some sequential ->
  run_debate_with_limit o budget tpc <> Completed evs.
Proof.
  intros Hno Hs. unfold run_debate_with_limit.
  destruct (ordered_rounds (orch_spec o)) as [|r0 rest] eqn:E; [discriminate|].
  assert (Hinit : empty_panel_ok o (initial_config o tpc r0)).
  { split; [apply initial_state_ok|]. split; [exact I|]. split; [reflexivity|]. split.
    - left. apply in_ordered_rounds. rewrite E. now left.
    - intros s' Hs'. apply (ordered_rounds_min _ _ _ _ E).
      apply is_round_type. congruence. }
  generalize (initial_config o tpc r0) Hinit. clear Hinit.
  induction budget as [|b IH]; intros c Hc; simpl; [discriminate|].
  destruct (step o c) as [c'|c'|evs' f] eqn:Es; [|clear IH|discriminate].
  - exact (IH c' (empty_panel_step o c c' Hno Hc Es)).
  - exfalso. destruct Hc as (_ & _ & _ & Hpos & Hseq).
    destruct (step_finish_inv _ _ _ Es) as (p & ? & Hrun & _ & Hend & _ & _).
    destruct (cfg_node c); simpl in Hrun, Hend; try discriminate.
    injection Hrun as <-. apply route_next_end in Hend.
    specialize (Hseq s Hs).
    assert (Hk : is_round (orch_spec o) s) by (apply is_round_type; congruence).
    destruct Hpos as [Hr|Hall].
    + apply is_round_type in Hr. contradiction.
    + specialize (Hall s Hk). lia.
Qed.

Definition orch_no_participants : Orchestrator := {|
  orch_agents := []; orch_spec := four_round_spec;
  orch_llm := echo_llm; orch_shuffle := keep_order |}.

Lemma run_debate_no_participants_never_completes_witness :
  type_for_round (orch_spec orch_no_participants) 2 = Some sequential
  /\ run_debate_with_limit orch_no_participants 100 "T"
     <> Completed [debate_complete].
Proof.
  split; [reflexivity|].
  exact (run_debate_no_participants_never_completes orch_no_participants 100 "T"
           [debate_complete] 2 eq_refl eq_refl).
Defined.

(** *** How many supersteps a run takes *)

(** The supersteps a round of the spec takes: [route_debate] and the
    executor, or for a sequential round [route_debate], the set-up, and one
    [route_debate] and one turn per participant. *)
Definition round_supersteps (participant_count : nat) (t : option RoundType) : nat :=
  match t with
  | Some sequential => 2 + 2 * participant_count
  | Some parallel | Some moderator => 2
  | None => O
  end.

Definition rounds_supersteps (o : Orchestrator) (ks : list Z) : nat :=
  list_sum (map (fun k => round_supersteps (length (orch_agents o))
                                           (type_for_round (orch_spec o) k)) ks).

(** The rounds of the spec after round [r], and the supersteps they take. *)
Definition supersteps_after (o : Orchestrator) (r : Z) : nat :=
  rounds_supersteps o (filter (fun k => r <? k) (ordered_rounds (orch_spec o))).

(** Every round of the spec, and the final [route_debate] that ends the run. *)
Definition supersteps_needed (o : Orchestrator) : nat :=
  1 + rounds_supersteps o (ordered_rounds (orch_spec o)).

(** The supersteps left when node [n] is about to run on [st]. *)
Definition supersteps_at (o : Orchestrator) (n : Node) (st : DebateState) : nat :=
  let r := current_round st in
  let k := length (orch_agents o) in
  let tail := supersteps_after o r in
  match n with
  | n_route_debate =>
      match type_for_round (orch_spec o) r with
      | None => 1
      | Some sequential =>
          match round_agent_order st with
          | [] => 2 + 2 * k + tail + 1
          | order => 2 * (length order - current_agent_index st) + tail + 1
          end
      | Some _ => 2 + tail + 1
      end
  | n_execute_parallel_round | n_execute_moderator_round => 1 + tail + 1
  | n_setup_sequential_round => 1 + 2 * k + tail + 1
  | n_execute_sequential_turn =>
      1 + 2 * (length (round_agent_order st) - current_agent_index st - 1) + tail + 1
  end%nat.

Lemma StronglySorted_lt (l : list Z) :
  StronglySorted Z.le l -> NoDup l -> StronglySorted Z.lt l.
Proof.
  induction l as [|x l IH]; intros Hs Hnd; [constructor|].
  inversion Hs as [|? ? Hl Hall]; subst. apply NoDup_cons_iff in Hnd as [Hx Hnd].
  constructor; [now apply IH|]. rewrite Forall_forall in Hall |- *.
  intros y Hy. specialize (Hall y Hy). assert (x <> y) by (intros ->; contradiction). lia.
Qed.

Lemma filter_gt_all (l : list Z) (r : Z) :
  Forall (fun y => r < y) l -> filter (fun k => r <? k) l = l.
Proof.
  induction l as [|y l IH]; intros H; simpl; [reflexivity|].
  inversion H as [|? ? Hy Hl]; subst. apply Z.ltb_lt in Hy. rewrite Hy. f_equal. now apply IH.
Qed.

Lemma StronglySorted_lt_le (l : list Z) :
  StronglySorted Z.lt l -> StronglySorted Z.le l.
Proof.
  induction l as [|x l IH]; intros Hs; [constructor|].
  inversion Hs as [|? ? Hl Hall]; subst. constructor; [now apply IH|].
  rewrite Forall_forall in Hall |- *. intros y Hy. specialize (Hall y Hy). lia.
Qed.

Lemma filter_first_greater (l : list Z) (r : Z) :
  StronglySorted Z.lt l ->
  filter (fun k => r <? k) l
  = match first_greater l r with
    | Some x => x :: filter (fun k => x <? k) l
    | None => []
    end.
Proof.
  induction l as [|y l IH]; intros Hs; simpl; [reflexivity|].
  inversion Hs as [|? ? Hl Hall]; subst.
  destruct (Z.ltb_spec r y) as [Hry|Hyr].
  - rewrite Z.ltb_irrefl. f_equal.
    rewrite (filter_gt_all l y Hall). apply filter_gt_all.
    rewrite Forall_forall in Hall |- *. intros z Hz. specialize (Hall z Hz). lia.
  - rewrite (IH Hl). destruct (first_greater l r) as [x|] eqn:E; [|reflexivity].
    destruct (first_greater_some _ _ _ (StronglySorted_lt_le _ Hl) E) as (_ & Hrx & _).
    destruct (Z.ltb_spec x y); [lia|reflexivity].
Qed.

Lemma filter_le_all (l : list Z) (r : Z) :
  (forall k, In k l -> k <= r) -> filter (fun k => r <? k) l = [].
Proof.
  induction l as [|y l IH]; intros H; simpl; [reflexivity|].
  destruct (Z.ltb_spec r y) as [Hry|_]; [specialize (H y (or_introl eq_refl)); lia|].
  apply IH. intros k Hk. apply H. now right.
Qed.

Lemma ordered_rounds_strict (s : DebateSpec) :
  NoDup (map fst (rounds s)) -> StronglySorted Z.lt (ordered_rounds s).
Proof.
  intros Hnd. apply StronglySorted_lt; [apply sort_Z_sorted|].
  exact (Permutation_NoDup (Permutation_sym (sort_Z_perm _)) Hnd).
Qed.

Lemma type_for_round_in (s : DebateSpec) (k : Z) :
  type_for_round s k = None <-> ~ In k (ordered_rounds s).
Proof.
  rewrite in_ordered_rounds. unfold type_for_round.
  destruct (dict_get (rounds s) k); split; intros H; try congruence.
  exfalso. apply H. discriminate.
Qed.

(** After round [r] come the round [_next_round_number] moves to, if the
    spec has it, and the rounds after that one. *)
Lemma supersteps_after_next (o : Orchestrator) (r : Z) :
  NoDup (map fst (rounds (orch_spec o))) ->
  supersteps_after o r
  = match type_for_round (orch_spec o) (next_round_number (orch_spec o) r) with
    | None => O
    | Some t => (round_supersteps (length (orch_agents o)) (Some t)
                 + supersteps_after o (next_round_number (orch_spec o) r))%nat
    end.
Proof.
  intros Hnd. pose proof (ordered_rounds_strict _ Hnd) as Hlt.
  unfold supersteps_after at 1. rewrite (filter_first_greater _ r Hlt).
  unfold next_round_number.
  destruct (first_greater (ordered_rounds (orch_spec o)) r) as [x|] eqn:E.
  - destruct (first_greater_some _ _ _ (sort_Z_sorted _) E) as (Hin & _ & _).
    destruct (type_for_round (orch_spec o) x) as [t|] eqn:Et.
    + unfold rounds_supersteps. simpl. rewrite Et. reflexivity.
    + apply type_for_round_in in Et. contradiction.
  - destruct (type_for_round (orch_spec o) (r + 1)) as [t|] eqn:Et; [|reflexivity].
    exfalso. assert (Hin : In (r + 1) (ordered_rounds (orch_spec o))).
    { destruct (in_dec Z.eq_dec (r + 1) (ordered_rounds (orch_spec o))) as [H|H];
        [exact H|]. apply type_for_round_in in H. congruence. }
    pose proof (first_greater_none _ _ E _ Hin). lia.
Qed.

(** An order set for a sequential round has one entry per participant. *)
Definition order_full (o : Orchestrator) (st : DebateState) : Prop :=
  round_agent_order st <> [] -> length (round_agent_order st) = length (orch_agents o).

Lemma order_empty_of_other (o : Orchestrator) (st : DebateState) (t : RoundType) :
  state_ok o st -> type_for_round (orch_spec o) (current_round st) = Some t ->
  t <> sequential -> round_agent_order st = [].
Proof.
  intros [_ Hs2] Ht Hne. destruct (round_agent_order st) eqn:E; [reflexivity|].
  destruct (Hs2 ltac:(discriminate)) as [_ Hseq]. congruence.
Qed.

(** The supersteps left when a round is over and [route_debate] moves on. *)
Lemma supersteps_round_over (o : Orchestrator) (st st' : DebateState) :
  NoDup (map fst (rounds (orch_spec o))) ->
  current_round st' = next_round_number (orch_spec o) (current_round st) ->
  round_agent_order st' = [] ->
  supersteps_at o n_route_debate st' = S (supersteps_after o (current_round st)).
Proof.
  intros Hnd Hr Ho. rewrite (supersteps_after_next o (current_round st) Hnd).
  unfold supersteps_at. rewrite Hr, Ho.
  destruct (type_for_round _ _) as [[]|]; simpl; lia.
Qed.

(** Every super-step that hands over to a node takes one from the
    supersteps left. *)
Lemma node_supersteps (o : Orchestrator) (n n' : Node) (st : DebateState) (p : Patch) :
  NoDup (map fst (rounds (orch_spec o))) -> orch_agents o <> [] ->
  (forall r l, Permutation (orch_shuffle o r l) l) ->
  state_ok o st -> node_ok o n st -> order_full o st ->
  run_node o n st = Ok p -> next_target n (apply_patch p st) = Ok (ToNode n') ->
  order_full o (apply_patch p st)
  /\ supersteps_at o n st = S (supersteps_at o n' (apply_patch p st)).
Proof.
  intros Hnd Hne Hsh Hs Hn Hf Hrun Ht. destruct n; simpl in Hn, Hrun.
  - (* route_debate *)
    injection Hrun as <-. split; [exact Hf|].
    unfold next_target in Ht. simpl in Ht. unfold route_code in Ht.
    destruct Hs as [_ Hs2].
    destruct (type_for_round (orch_spec o) (current_round st)) as [[]|] eqn:Ety;
      [|destruct (round_agent_order st) as [|a l] eqn:Eo| |]; simpl in Ht;
      try discriminate Ht; injection Ht as <-; unfold supersteps_at; simpl; rewrite Ety; try rewrite Eo;
      try lia.
    destruct (Hs2 ltac:(discriminate)) as [Hi _].
    destruct (current_agent_index st); simpl in Hi |- *; lia.
  - (* parallel *)
    apply parallel_shape in Hrun as (cfg & results & status & _ & _ & ->).
    injection Ht as <-.
    pose proof (order_empty_of_other o st parallel Hs Hn ltac:(discriminate)) as Ho.
    split; [intros H; simpl in H; contradiction|].
    rewrite (supersteps_round_over o st _ Hnd); [|reflexivity|exact Ho].
    unfold supersteps_at. lia.
  - (* setup *)
    injection Hrun as <-. injection Ht as <-. destruct Hn as [Hseq Ho].
    destruct Hs as [Hs1 _]. specialize (Hs1 Ho).
    pose proof (get_randomized_agents_perm (orch_agents o)
                  (orch_shuffle o (current_round st)) (last_speaker_id st)
                  (Hsh _ _)) as Hp.
    unfold setup_sequential_round, apply_patch, order_full, supersteps_at; simpl.
    rewrite Hseq, Hs1.
    destruct (get_randomized_agents _ _ _) as [|a l] eqn:Eg.
    + apply Permutation_nil in Hp. contradiction.
    + apply Permutation_length in Hp. split; [intros _; exact Hp|].
      simpl in Hp. lia.
  - (* sequential turn *)
    destruct Hn as [Hseq Hne'].
    destruct Hs as [_ Hs2]. destruct (Hs2 Hne') as [Hi _].
    apply turn_shape in Hrun
      as (agent & resp & status & cfg & Hnth & Hl & [(Hle & ->)|(Hlt & ->)]);
      injection Ht as <-.
    + split; [intros H; simpl in H; contradiction|].
      rewrite (supersteps_round_over o st _ Hnd); [|reflexivity|reflexivity].
      unfold supersteps_at.
      replace (length (round_agent_order st) - current_agent_index st - 1)%nat with O by lia.
      lia.
    + split; [exact Hf|].
      unfold supersteps_at; simpl. rewrite Hseq.
      destruct (round_agent_order st) as [|a l] eqn:Eo; [contradiction|].
      simpl in Hlt |- *. destruct (current_agent_index st); simpl in Hlt |- *; lia.
  - (* moderator *)
    apply moderator_shape in Hrun as (cfg & resp & status & _ & ->).
    injection Ht as <-.
    pose proof (order_empty_of_other o st moderator Hs Hn ltac:(discriminate)) as Ho.
    split; [intros H; simpl in H; contradiction|].
    rewrite (supersteps_round_over o st _ Hnd); [|reflexivity|exact Ho].
    unfold supersteps_at. lia.
Qed.

Lemma finish_supersteps (o : Orchestrator) (n : Node) (st : DebateState) (p : Patch) :
  run_node o n st = Ok p -> next_target n (apply_patch p st) = Ok ToEND ->
  supersteps_at o n st = 1%nat.
Proof.
  intros Hrun Ht. destruct n; simpl in Ht; try discriminate.
  simpl in Hrun. injection Hrun as <-. apply route_next_end in Ht.
  unfold supersteps_at. now rewrite Ht.
Qed.

Section Supersteps.

Variable o : Orchestrator.
Hypothesis Hnd : NoDup (map fst (rounds (orch_spec o))).
Hypothesis Hne : orch_agents o <> [].
Hypothesis Hc : llm_failures_caught o.
Hypothesis Hsh : forall r l, Permutation (orch_shuffle o r l) l.

Definition steps_inv (c : Config) : Prop :=
  state_ok o (cfg_state c) /\ node_ok o (cfg_node c) (cfg_state c) /\ order_full o (cfg_state c).

Lemma step_supersteps (c : Config) :
  steps_inv c ->
  (exists c', step o c = Next c' /\ steps_inv c'
              /\ supersteps_at o (cfg_node c) (cfg_state c)
                 = S (supersteps_at o (cfg_node c') (cfg_state c')))
  \/ (exists c', step o c = Finish c' /\ supersteps_at o (cfg_node c) (cfg_state c) = 1%nat).
Proof.
  intros (Hs & Hn & Hf). destruct (step o c) as [c'|c'|evs f] eqn:E.
  - left. exists c'. split; [reflexivity|].
    destruct (step_preserves_ok o c c' Hs Hn E) as [Hs' Hn'].
    destruct (step_next_inv _ _ _ E) as (p & evs & Hrun & Hst & Ht & _ & _).
    destruct (node_supersteps o _ _ _ _ Hnd Hne Hsh Hs Hn Hf Hrun Ht) as [Hf' Heq].
    rewrite <- Hst in Hf', Heq. split; [split; [|split]; assumption|exact Heq].
  - right. exists c'. split; [reflexivity|].
    destruct (step_finish_inv _ _ _ E) as (p & evs & Hrun & _ & Ht & _ & _).
    exact (finish_supersteps _ _ _ _ Hrun Ht).
  - exfalso. exact (step_no_fault o c evs f Hc Hs Hn E).
Qed.

Lemma drive_supersteps (budget : nat) (c : Config) :
  steps_inv c ->
  ((supersteps_at o (cfg_node c) (cfg_state c) < budget)%nat ->
   exists evs, drive o budget c = Completed evs)
  /\ ((budget <= supersteps_at o (cfg_node c) (cfg_state c))%nat ->
      exists evs, drive o budget c = Aborted evs GraphRecursionError).
Proof.
  revert c. induction budget as [|b IH]; intros c Hi.
  - split; intros H; [lia|]. simpl. now eexists.
  - simpl. destruct (step_supersteps c Hi) as [(c' & E & Hi' & Heq)|(c' & E & Heq)];
      rewrite E.
    + rewrite Heq. destruct (IH c' Hi') as [H1 H2]. split; intros H; [apply H1|apply H2]; lia.
    + destruct b; split; intros H; try lia; now eexists.
Qed.

End Supersteps.

Lemma ordered_rounds_nil (s : DebateSpec) :
  ordered_rounds s = [] -> rounds s = [].
Proof.
  unfold ordered_rounds. intros H.
  pose proof (Permutation_length (sort_Z_perm (map fst (rounds s)))) as Hl.
  rewrite H, length_map in Hl. destruct (rounds s); [reflexivity|discriminate].
Qed.

Lemma supersteps_initial (o : Orchestrator) (tpc : string) (r0 : Z) (rest : list Z) :
  NoDup (map fst (rounds (orch_spec o))) ->
  ordered_rounds (orch_spec o) = r0 :: rest ->
  supersteps_at o n_route_debate (initial_state o tpc r0) = supersteps_needed o.
Proof.
  intros Hnd Eor. pose proof (ordered_rounds_strict _ Hnd) as Hlt.
  rewrite Eor in Hlt. inversion Hlt as [|? ? _ Hall]; subst.
  assert (Hin : In r0 (ordered_rounds (orch_spec o))) by (rewrite Eor; now left).
  destruct (type_for_round (orch_spec o) r0) as [t|] eqn:Et;
    [|apply type_for_round_in in Et; contradiction].
  unfold supersteps_at, supersteps_needed, supersteps_after.
  cbn [initial_state current_round round_agent_order]. rewrite Et, Eor.
  cbn [filter]. rewrite Z.ltb_irrefl, (filter_gt_all rest r0 Hall).
  unfold rounds_supersteps. cbn [map list_sum]. rewrite Et.
  destruct t; simpl; lia.
Qed.

(** With a spec whose round numbers are distinct, at least one
    participant, completion failures that [_invoke_agent] catches and a
    shuffle that permutes, [run_debate] needs exactly [supersteps_needed]
    super-steps: one [route_debate] and one executor per parallel or
    moderator round, one [route_debate], one set-up and a [route_debate]
    and a turn per participant for a sequential round, and the final
    [route_debate]. The run completes when the recursion limit exceeds that
    number (the tick that finds no task left also counts); under a limit
    of at most that number it aborts with [GraphRecursionError]. *)
Theorem run_debate_supersteps_needed (o : Orchestrator) (budget : nat) (tpc : string) :
  NoDup (map fst (rounds (orch_spec o))) -> rounds (orch_spec o) <> [] ->
  orch_agents o <> [] -> llm_failures_caught o ->
  (forall r l, Permutation (orch_shuffle o r l) l) ->
  ((supersteps_needed o < budget)%nat ->
   exists evs, run_debate_with_limit o budget tpc = Completed evs)
  /\ ((budget <= supersteps_needed o)%nat ->
      exists evs, run_debate_with_limit o budget tpc = Aborted evs GraphRecursionError).
Proof.
  intros Hnd Hr Hne Hc Hsh. unfold run_debate_with_limit.
  destruct (ordered_rounds (orch_spec o)) as [|r0 rest] eqn:Eor;
    [apply ordered_rounds_nil in Eor; contradiction|].
  assert (Hi : steps_inv o (initial_config o tpc r0)).
  { split; [apply initial_state_ok|split; [exact I|]]. intros H. contradiction. }
  pose proof (drive_supersteps o Hnd Hne Hc Hsh budget _ Hi) as H.
  cbn [initial_config cfg_node cfg_state] in H.
  rewrite (supersteps_initial o tpc r0 rest Hnd Eor) in H. exact H.
Qed.

Lemma run_debate_supersteps_needed_witness :
  supersteps_needed orch5 = 29%nat
  /\ (exists evs, run_debate_with_limit orch5 30 "T" = Completed evs)
  /\ (exists evs, run_debate_with_limit orch5 29 "T" = Aborted evs GraphRecursionError).
Proof.
  assert (Hnd : NoDup (map fst (rounds (orch_spec orch5)))).
  { simpl. repeat constructor; simpl; intuition discriminate. }
  assert (Hr : rounds (orch_spec orch5) <> []) by discriminate.
  assert (Hne : orch_agents orch5 <> []) by discriminate.
  assert (Hc : llm_failures_caught orch5) by (intros m e H; discriminate).
  assert (Hsh : forall r l, Permutation (orch_shuffle orch5 r l) l)
    by (intros r l; apply Permutation_refl).
  split; [vm_compute; reflexivity|split].
  - apply (run_debate_supersteps_needed orch5 30 "T" Hnd Hr Hne Hc Hsh). vm_compute. lia.
  - apply (run_debate_supersteps_needed orch5 29 "T" Hnd Hr Hne Hc Hsh). vm_compute. lia.
Defined.
